(** * quicklens: the lens-field utilities, the source sampler and the renderer

    A shallow embedding of the C++ sources of quicklens (math.cpp, lens.cpp
    and renderer.cpp, the latter in the variant whose members are defined
    outside the class and whose caustic pass checks its bounds), and the
    properties its specification states about them.

    Conventions of the embedding.
    - [double] is read as a real number ([R]), and a real-valued result is
      stated up to the rounding of IEEE-754 binary64, which the embedding
      does not describe.  Where rounding decides more than the last digits
      of a result it is not read away: [exp] returns 0 below the range of
      binary64 ([double_exp]), the product whose truncation gives the size
      of a resized source is the rounded product, a parameter
      ([double_mul]), and the byte cut from an interpolated value is stated
      to within one unit.
    - [int] is read as an integer ([Z]).  Signed overflow is undefined in C++
      and lies outside the embedding.  Where C++ defines a wrap-around
      (arithmetic on [size_t], narrowing to [int] or [uchar]) it is written
      out, for an LP64 platform ([int] 32 bits, [size_t] 64 bits).
    - The conversion of a [double] to [int] is the truncation toward zero;
      C++ defines it only when the truncated value fits the type.
    - [cv::Mat] is read as its dimensions together with a total cell
      function; [at<T>(r, c)] is a lookup and an assignment to it an update
      of that function.  OpenCV does not check the indices.
    - [cv::parallel_for_] is read as one call of the loop body on the whole
      range of rows. *)

From Stdlib Require Import ZArith Reals Lra Lia List Bool Zfloor Classical_Prop.
Import ListNotations.
Local Open Scope Z_scope.

(** ** C++ numeric conversions *)
Module Cxx.

(** [static_cast<int>(x)] for a double [x]: truncation toward zero. *)
Definition int_of_double (x : R) : Z :=
  if Rle_dec 0 x then Zfloor x else Zceil x.

(** [floor(x)] of <math.h>: a double again. *)
Definition floor (x : R) : R := IZR (Zfloor x).

(** Conversion of a double to [uchar] (truncation, then 8 bits). *)
Definition uchar_of_double (x : R) : Z := int_of_double x mod 256.

(** Conversion of an integer to [uchar]. *)
Definition uchar_of_int (z : Z) : Z := z mod 256.

(** Arithmetic on [size_t] is modulo 2^64. *)
Definition wrap_size_t (z : Z) : Z := z mod 2 ^ 64.

(** Narrowing to [int] keeps the low 32 bits, two's complement. *)
Definition wrap_int (z : Z) : Z := (z + 2 ^ 31) mod 2 ^ 32 - 2 ^ 31.

(** [a / b] on [int]: the quotient truncated toward zero. *)
Definition int_div (a b : Z) : Z := Z.quot a b.

(** [exp(x)] of <cmath> on doubles.  The smallest positive double is
    2^-1074; an exponential of at most half of it, 2^-1075, cannot be held
    and is returned as 0 (underflow, for [x] below about -745.13). *)
Definition double_exp (x : R) : R :=
  if Rle_dec (exp x) (/ 2 ^ 1075) then 0%R else exp x.

(** Comparisons of doubles, as booleans. *)
Definition Rleb (x y : R) : bool := if Rle_dec x y then true else false.

(** [for (i = lo; i < hi; ++i) body]: the state after the loop. *)
Fixpoint for_iter {S : Type} (n : nat) (i : Z) (body : Z -> S -> S) (s : S) : S :=
  match n with
  | O => s
  | Datatypes.S n' => for_iter n' (i + 1) body (body i s)
  end.

Definition for_loop {S : Type} (lo hi : Z) (body : Z -> S -> S) (s : S) : S :=
  for_iter (Z.to_nat (hi - lo)) lo body s.

End Cxx.
Import Cxx.

(** ** cv::Mat *)
Record Mat (T : Type) : Type := mkMat {
  rows : Z;
  cols : Z;
  Mat_at : Z -> Z -> T
}.
Arguments mkMat {T} _ _ _.
Arguments rows {T} _.
Arguments cols {T} _.
Arguments Mat_at {T} _ _ _.

(** [m.at<T>(r, c) = v] *)
Definition Mat_set {T : Type} (m : Mat T) (r c : Z) (v : T) : Mat T :=
  mkMat (rows m) (cols m)
        (fun r' c' => if (r' =? r) && (c' =? c) then v else Mat_at m r' c').

(** [0 <= r < m.rows] and [0 <= c < m.cols] *)
Definition in_Mat {T : Type} (m : Mat T) (r c : Z) : Prop :=
  0 <= r < rows m /\ 0 <= c < cols m.

(** [Mat::zeros(h, w, CV_64FC1)] and [Mat::zeros(h, w, CV_8UC1)] *)
Definition Mat_zeros (h w : Z) : Mat R := mkMat h w (fun _ _ => 0%R).
Definition Mat_zeros8u (h w : Z) : Mat Z := mkMat h w (fun _ _ => 0).

(** Element-wise operations of [cv::MatExpr]. *)
Definition Mat_map {A B : Type} (f : A -> B) (m : Mat A) : Mat B :=
  mkMat (rows m) (cols m) (fun r c => f (Mat_at m r c)).
Definition Mat_map2 {A B C : Type} (f : A -> B -> C) (m : Mat A) (n : Mat B) : Mat C :=
  mkMat (rows m) (cols m) (fun r c => f (Mat_at m r c) (Mat_at n r c)).

(** [src(Rect(sx, sy, w, h)).copyTo(dst(Rect(dx, dy, w, h)))] *)
Definition copy_rect {T : Type} (src : Mat T) (sx sy w h : Z)
                     (dst : Mat T) (dx dy : Z) : Mat T :=
  mkMat (rows dst) (cols dst)
        (fun r c =>
           if (dy <=? r) && (r <? dy + h) && (dx <=? c) && (c <? dx + w)
           then Mat_at src (r - dy + sy) (c - dx + sx)
           else Mat_at dst r c).

(** The cells of a grid, row by row. *)
Definition Mat_cells {T : Type} (m : Mat T) : list T :=
  flat_map (fun r => map (fun c => Mat_at m (Z.of_nat r) (Z.of_nat c))
                         (seq 0 (Z.to_nat (cols m))))
           (seq 0 (Z.to_nat (rows m))).

(** A grid of [uchar]: every cell is a byte. *)
Definition uchar_Mat (m : Mat Z) : Prop :=
  forall r c, 0 <= Mat_at m r c <= 255.

(** ** cv::Vec3b *)
Definition Vec3b : Type := (Z * Z * Z)%type.

Definition Vec3b_get (v : Vec3b) (c : Z) : Z :=
  let '(v0, v1, v2) := v in
  if c =? 0 then v0 else if c =? 1 then v1 else v2.

Definition Vec3b_set (v : Vec3b) (c : Z) (x : Z) : Vec3b :=
  let '(v0, v1, v2) := v in
  if c =? 0 then (x, v1, v2) else if c =? 1 then (v0, x, v2) else (v0, v1, x).

Definition uchar_Vec3b (v : Vec3b) : Prop :=
  forall c, 0 <= Vec3b_get v c <= 255.

(** ** math.cpp *)
Module FieldMath.

(** [int relocate(double phys_coord, int interval_len)].  The conversion
    to [int] is defined by C++ when the truncated value fits an [int]; the
    clamp that follows holds for whatever integer it yields. *)
Definition relocate (phys_coord : R) (interval_len : Z) : Z :=
  let nearest := int_of_double (phys_coord + 0.5) in
  if nearest <? 0 then 0
  else if nearest >=? interval_len then interval_len - 1
  else nearest.

(** [int relocate(int rounded_coord, int interval_len)] *)
Definition relocate_int (rounded_coord interval_len : Z) : Z :=
  if rounded_coord <? 0 then 0
  else if rounded_coord >=? interval_len then interval_len - 1
  else rounded_coord.

(** [double exp_fall_off(int rel_px, int len, double half, double lm1)] *)
Definition exp_fall_off (rel_px len : Z) (half lm1 : R) : R :=
  let f := 1%R in
  if rel_px <? 0 then (f * double_exp (IZR rel_px / half))%R
  else if rel_px >=? len then (f * double_exp ((lm1 - IZR rel_px) / half))%R
  else f.

(** [double relocate_and_compute_exp_falloff(int rel_px, int len,
    double half, double lm1, int &safe_rel_x)]: the returned weight and
    the value left in [safe_rel_x]. *)
Definition relocate_and_compute_exp_falloff
           (rel_px len : Z) (half lm1 : R) : R * Z :=
  if rel_px <? 0 then (double_exp (IZR rel_px / half), 0)
  else if rel_px >=? len
       then (double_exp ((lm1 - IZR rel_px) / half), int_of_double lm1)
       else (1%R, rel_px).

(** The value [val] of one cell of the Green's function kernel, at the
    loop indices [i], [j].  [i_sq] is an [int]; [i_sq + j*j] is a
    [size_t]. *)
Definition green_val (i j : Z) : R :=
  let factor := (1 / PI)%R in
  let i_sq := wrap_int (wrap_size_t (i * i)) in
  if (i =? 0) && (j =? 0) then (-1.4658711977588554)%R
  else (factor * ln (sqrt (IZR (wrap_size_t (i_sq + wrap_size_t (j * j))))))%R.

(** The body of the inner loop of [fill_green_fct]. *)
Definition fill_green_cell (X Y i j : Z) (g : Mat R) : Mat R :=
  let Ymi := wrap_size_t (Y - i) in
  let Xmj := wrap_size_t (X - j) in
  let val := green_val i j in
  let g := Mat_set g i j val in
  let g := if negb (i =? 0)
           then let g := Mat_set g Ymi j val in
                if negb (j =? 0) then Mat_set g Ymi Xmj val else g
           else g in
  if negb (j =? 0) then Mat_set g i Xmj val else g.

(** [void fill_green_fct(Mat &green_fct)] *)
Definition fill_green_fct (green_fct : Mat R) : Mat R :=
  let X := cols green_fct in
  let Y := rows green_fct in
  let X2 := X / 2 in
  let Y2 := Y / 2 in
  for_loop 0 (Y2 + 1)
    (fun i g => for_loop 0 (X2 + 1) (fun j g => fill_green_cell X Y i j g) g)
    green_fct.

Inductive Direction : Type := ShiftUp | ShiftRight | ShiftDown | ShiftLeft.

(** [Mat translateImg(Mat f, int N, Direction direction)] *)
Definition translateImg (f : Mat R) (N : Z) (direction : Direction) : Mat R :=
  let tmp := Mat_zeros (rows f) (cols f) in
  match direction with
  | ShiftUp => copy_rect f 0 N (cols f) (rows f - N) tmp 0 0
  | ShiftLeft => copy_rect f 0 0 (cols f - N) (rows f) tmp N 0
  | ShiftDown => copy_rect f 0 0 (cols f) (rows f - N) tmp 0 N
  | ShiftRight => copy_rect f N 0 (cols f - N) (rows f) tmp 0 0
  end.

(** [(a - b) / 2.0] *)
Definition half_diff (a b : Mat R) : Mat R :=
  Mat_map2 (fun x y => ((x - y) / 2)%R) a b.

(** The body of the border loop of [deriv_x], for row [i]. *)
Definition deriv_x_border (N_c i : Z) (result : Mat R) : Mat R :=
  let border1 := Mat_at result i 2 in
  let border2 := Mat_at result i (N_c - 3) in
  let result := Mat_set result i 0 border1 in
  let result := Mat_set result i 1 border1 in
  let result := Mat_set result i (N_c - 1) border2 in
  Mat_set result i (N_c - 2) border2.

(** [void deriv_x(Mat &input, Mat &result)].  The border loop reads the
    columns 2 and [N_c - 3]: on fewer than 3 columns the code reads outside
    the matrix, which C++ leaves undefined; the properties below are stated
    for grids of at least 5 columns. *)
Definition deriv_x (input : Mat R) : Mat R :=
  let xp1 := translateImg input 1 ShiftRight in
  let xm1 := translateImg input 1 ShiftLeft in
  let result := half_diff xp1 xm1 in
  let N_r := rows result in
  let N_c := cols result in
  for_loop 0 N_r (deriv_x_border N_c) result.

(** The body of the border loop of [deriv_y], for column [i]. *)
Definition deriv_y_border (N_r i : Z) (result : Mat R) : Mat R :=
  let border1 := Mat_at result 2 i in
  let border2 := Mat_at result (N_r - 3) i in
  let result := Mat_set result 0 i border1 in
  let result := Mat_set result 1 i border1 in
  let result := Mat_set result (N_r - 1) i border2 in
  Mat_set result (N_r - 2) i border2.

(** [void deriv_y(Mat &input, Mat &result)].  As for [deriv_x], with rows
    for columns. *)
Definition deriv_y (input : Mat R) : Mat R :=
  let yp1 := translateImg input 1 ShiftUp in
  let ym1 := translateImg input 1 ShiftDown in
  let result := half_diff yp1 ym1 in
  let N_c := cols result in
  let N_r := rows result in
  for_loop 0 N_c (deriv_y_border N_r) result.

End FieldMath.
Import FieldMath.

(** ** lens.h, lens.cpp: the lens *)
Module Lens.

Record lensT : Type := mk_lensT {
  origin : Z * Z;
  end_points : Z * Z;
  w : Z;
  h : Z;
  psi : Mat R;
  alpha1 : Mat R;
  alpha2 : Mat R;
  kappa : Mat R;
  kappa8u : Mat Z;
  shear : Mat R;
  cc_map : Mat Z;
  caustic_map : Mat Z;
  weight : R
}.

Definition with_geometry (l : lensT) (o e : Z * Z) : lensT :=
  mk_lensT o e (w l) (h l) (psi l) (alpha1 l) (alpha2 l) (kappa l)
           (kappa8u l) (shear l) (cc_map l) (caustic_map l) (weight l).

Definition with_weight (l : lensT) (wt : R) : lensT :=
  mk_lensT (origin l) (end_points l) (w l) (h l) (psi l) (alpha1 l)
           (alpha2 l) (kappa l) (kappa8u l) (shear l) (cc_map l)
           (caustic_map l) wt.

Definition with_kappa (l : lensT) (k : Mat R) (k8 : Mat Z) : lensT :=
  mk_lensT (origin l) (end_points l) (w l) (h l) (psi l) (alpha1 l)
           (alpha2 l) k k8 (shear l) (cc_map l) (caustic_map l) (weight l).

Definition with_psi (l : lensT) (p k : Mat R) : lensT :=
  mk_lensT (origin l) (end_points l) (w l) (h l) p (alpha1 l)
           (alpha2 l) k (kappa8u l) (shear l) (cc_map l) (caustic_map l)
           (weight l).

Definition with_derivatives (l : lensT) (a1 a2 sh : Mat R) : lensT :=
  mk_lensT (origin l) (end_points l) (w l) (h l) (psi l) a1 a2 (kappa l)
           (kappa8u l) sh (cc_map l) (caustic_map l) (weight l).

Definition with_cc_map (l : lensT) (cc : Mat Z) : lensT :=
  mk_lensT (origin l) (end_points l) (w l) (h l) (psi l) (alpha1 l)
           (alpha2 l) (kappa l) (kappa8u l) (shear l) cc (caustic_map l)
           (weight l).

Definition with_caustic_map (l : lensT) (cm : Mat Z) : lensT :=
  mk_lensT (origin l) (end_points l) (w l) (h l) (psi l) (alpha1 l)
           (alpha2 l) (kappa l) (kappa8u l) (shear l) (cc_map l) cm
           (weight l).

(** [void lensT::move(int x_pos, int y_pos)] *)
Definition move (l : lensT) (x_pos y_pos : Z) : lensT :=
  let o0 := x_pos - int_div (w l) 2 in
  let o1 := y_pos - int_div (h l) 2 in
  with_geometry l (o0, o1) (o0 + w l, o1 + h l).

(** [bool lensT::contains(int x, int y)] *)
Definition contains (l : lensT) (x y : Z) : bool :=
  (fst (origin l) <? x) && (x <? fst (end_points l))
  && (snd (origin l) <? y) && (y <? snd (end_points l)).

(** [void lensT::raytrace_pixel(int x1, int x2, int rel1_safe,
    int rel2_safe, double scale_fac, double &y1, double &y2)]:
    the pair [(y1, y2)]. *)
Definition raytrace_pixel (l : lensT) (x1 x2 rel1_safe rel2_safe : Z)
                          (scale_fac : R) : R * R :=
  ((IZR x1 - Mat_at (alpha1 l) rel2_safe rel1_safe * scale_fac * weight l)%R,
   (IZR x2 - Mat_at (alpha2 l) rel2_safe rel1_safe * scale_fac * weight l)%R).

End Lens.

(** ** renderer.cpp: the passes that build the critical-curve and caustic maps *)
Module Inverter.
Import Lens.

(** [binary_img_from_sign::operator()(const cv::Range &range)] *)
Definition binary_img_from_sign (inp : Mat R) (out : Mat Z)
                                (range_start range_end : Z) : Mat Z :=
  let width := cols inp in
  for_loop range_start range_end
    (fun c out =>
       for_loop 0 width
         (fun d out =>
            Mat_set out c d (if Rleb (Mat_at inp c d) 0 then 1 else 0))
         out)
    out.

(** The body of the inner loop of [invert_cc_map::operator()], for the
    pixel in row [i] and column [j]; the state is the caustic map. *)
Definition invert_cc_pixel (lens : lensT) (width height i j : Z)
                           (caustic : Mat Z) : Mat Z :=
  let '(beta1, beta2) := raytrace_pixel lens j i j i 1%R in
  let b1 := int_of_double (beta1 + 0.5) in
  let b2 := int_of_double (beta2 + 0.5) in
  if (Mat_at (cc_map lens) i j >? 0)
     && (0 <=? b1) && (b1 <? width) && (0 <=? b2) && (b2 <? height)
  then
    let caustic := Mat_set caustic b2 b1 255 in
    let low0 := relocate_int (b1 - 1) width in
    let low1 := relocate_int (b2 - 1) height in
    let caustic := Mat_set caustic low1 b1 255 in
    Mat_set caustic b2 low0 255
  else caustic.

(** [invert_cc_map::operator()(const cv::Range &range)] *)
Definition invert_cc_map (lens : lensT) (range_start range_end : Z) : lensT :=
  let width := cols (caustic_map lens) in
  let height := rows (caustic_map lens) in
  with_caustic_map lens
    (for_loop range_start range_end
       (fun i cm =>
          for_loop 0 width (fun j cm => invert_cc_pixel lens width height i j cm) cm)
       (caustic_map lens)).

End Inverter.

(** ** lens.cpp: construction of the lens *)
Module LensBuild.
Import Lens Inverter.

(** OpenCV's [cv::normalize(src, dst, a, b, cv::NORM_MINMAX)] on a
    double-valued grid: the values are mapped affinely so that the
    smallest becomes [min a b] and the largest [max a b]; a grid whose
    values do not differ by more than [DBL_EPSILON], 2^-52, becomes [min a b]
    throughout. *)
Definition DBL_EPSILON : R := (/ 4503599627370496)%R.

Definition normalize_minmax (src : Mat R) (a b : R) : Mat R :=
  let cells := Mat_cells src in
  let smin := fold_right Rmin (hd 0%R cells) cells in
  let smax := fold_right Rmax (hd 0%R cells) cells in
  let dmin := Rmin a b in
  let dmax := Rmax a b in
  let scale := ((dmax - dmin) *
                (if Rlt_dec DBL_EPSILON (smax - smin) then 1 / (smax - smin) else 0))%R in
  let shift := (dmin - smin * scale)%R in
  Mat_map (fun v => (v * scale + shift)%R) src.

(** OpenCV's conversion of a double to [uchar] in [convertTo]:
    rounding to the nearest integer, ties to even, then saturation. *)
Definition cvRound (x : R) : Z :=
  let f := Zfloor x in
  if Rlt_dec (x - IZR f) 0.5 then f
  else if Rlt_dec 0.5 (x - IZR f) then f + 1
  else if Z.even f then f else f + 1.

Definition saturate_uchar (z : Z) : Z := Z.max 0 (Z.min 255 z).

(** [cv::copyMakeBorder(m, m, 0, bottom, 0, right, cv::BORDER_CONSTANT)] *)
Definition copyMakeBorder (m : Mat R) (bottom right : Z) : Mat R :=
  mkMat (rows m + bottom) (cols m + right)
        (fun r c => if (0 <=? r) && (r <? rows m) && (0 <=? c) && (c <? cols m)
                    then Mat_at m r c else 0%R).

(** [m(cv::Rect(0, 0, w, h))] *)
Definition crop (m : Mat R) (w h : Z) : Mat R := mkMat h w (Mat_at m).

Definition Mat_empty {T : Type} (d : T) : Mat T := mkMat 0 0 (fun _ _ => d).

(** The convergence handed to the constructor: [CV_8U] or [CV_64F]. *)
Inductive kappa_input : Type :=
| Kappa8U (m : Mat Z)
| Kappa64F (m : Mat R).

Definition input_cols (k : kappa_input) : Z :=
  match k with Kappa8U m => cols m | Kappa64F m => cols m end.
Definition input_rows (k : kappa_input) : Z :=
  match k with Kappa8U m => rows m | Kappa64F m => rows m end.

(** The two branches of the constructor that store [kappa] and
    [kappa8u]: the pair [(kappa, kappa8u)].  [cv::log] is the natural
    logarithm of a positive value; OpenCV leaves its result at zero and at
    negative values undefined, and the bytes of the second branch are
    those of the code for positive convergence only. *)
Definition store_kappa (kappa_in : kappa_input) : Mat R * Mat Z :=
  match kappa_in with
  | Kappa8U m =>
      let kappa8u := m in
      let kappa_in := Mat_map IZR m in
      let kappa_in := normalize_minmax kappa_in 2 0 in
      (kappa_in, kappa8u)
  | Kappa64F m =>
      let kappa := m in
      let kappa_in := Mat_map (fun v => ((ln v + 2.5) * 70)%R) m in
      (kappa, Mat_map (fun v => saturate_uchar (cvRound v)) kappa_in)
  end.

Section OpenCV.
(** What OpenCV computes and this repository does not. *)
Variable getOptimalDFTSize : Z -> Z.
(** [dft] of both arguments, [mulSpectrums], [idft] with [DFT_SCALE]. *)
Variable dft_convolve : Mat R -> Mat R -> Mat R.
Variable GaussianBlur : Mat R -> Mat R.
(** [findContours] on the binary map, then [drawContours] of every
    contour into a map of zeros. *)
Variable draw_contours : Mat Z -> Mat Z.

(** [void lensT::compute_psi_from_kappa()] *)
Definition compute_psi_from_kappa (l : lensT) : lensT :=
  let orig_w := cols (kappa l) in
  let orig_h := rows (kappa l) in
  let opt_2w := getOptimalDFTSize (2 * orig_w) in
  let opt_2h := getOptimalDFTSize (2 * orig_h) in
  let kappa' := copyMakeBorder (kappa l) (opt_2h - orig_h) (opt_2w - orig_w) in
  let G := fill_green_fct (Mat_zeros opt_2h opt_2w) in
  let psi' := dft_convolve kappa' G in
  with_psi l (crop psi' orig_w orig_h) (crop kappa' orig_w orig_h).

(** [void lensT::compute_derivatives_from_psi()] *)
Definition compute_derivatives_from_psi (l : lensT) : lensT :=
  let a1 := deriv_x (psi l) in
  let a2 := deriv_y (psi l) in
  let psi_11 := deriv_x a1 in
  let psi_22 := deriv_y a2 in
  let psi_12 := deriv_y a1 in
  let diff := Mat_map2 Rminus psi_11 psi_22 in
  let sh := Mat_map2 (fun d p => (0.25 * (d * d) + p * p)%R) diff psi_12 in
  with_derivatives l a1 a2 (Mat_map sqrt sh).

(** [void lensT::update_cc_and_caustics(bool include_radial_lines)];
    [cv::parallel_for_] is read as one call of the loop body on the
    whole range. *)
Definition update_cc_and_caustics (l : lensT) (include_radial_lines : bool) : lensT :=
  let l := if cols (shear l) =? 0 then compute_derivatives_from_psi l else l in
  let width := cols (kappa l) in
  let height := rows (kappa l) in
  let tan_eigenval :=
    Mat_map2 (fun k s => (1 - weight l * (k + s))%R) (kappa l) (shear l) in
  let rad_eigenval :=
    Mat_map2 (fun k s => (1 - weight l * (k - s))%R) (kappa l) (shear l) in
  let detJ := if include_radial_lines
              then Mat_map2 Rmult tan_eigenval rad_eigenval
              else tan_eigenval in
  let detJ := GaussianBlur detJ in
  let cc := if negb (cols (cc_map l) =? width) && negb (rows (cc_map l) =? height)
            then Mat_zeros8u height width else cc_map l in
  let cc := binary_img_from_sign detJ cc 0 height in
  let cc := draw_contours cc in
  let l := with_cc_map l cc in
  let l := with_caustic_map l (Mat_zeros8u (h l) (w l)) in
  invert_cc_map l 0 (h l).

(** The lens before the constructor body runs: [w] and [h] from the
    input, the default member initialisers elsewhere. *)
Definition lensT_init (kappa_in : kappa_input) : lensT :=
  mk_lensT (0, 0) (0, 0) (input_cols kappa_in) (input_rows kappa_in)
           (Mat_empty 0%R) (Mat_empty 0%R) (Mat_empty 0%R) (Mat_empty 0%R)
           (Mat_empty 0) (Mat_empty 0%R) (Mat_empty 0) (Mat_empty 0) 1%R.

(** [lensT::lensT(Mat &kappa_in, int x, int y)] *)
Definition lensT_new (kappa_in : kappa_input) (x y : Z) : lensT :=
  let l := lensT_init kappa_in in
  let l := move l x y in
  let '(k, k8) := store_kappa kappa_in in
  let l := with_kappa l k k8 in
  let l := compute_psi_from_kappa l in
  let l := compute_derivatives_from_psi l in
  update_cc_and_caustics l true.

End OpenCV.

End LensBuild.

(** ** lens.h, lens.cpp: the source *)
Module Source.

Record sourceT : Type := mk_sourceT {
  origin : Z * Z;
  pos : Z * Z;
  end_points : Z * Z;
  w : Z;
  h : Z;
  imageRGB : Mat Vec3b;
  channels : Z -> Mat Z
}.

(** [cv::split(img, channels)] *)
Definition split (img : Mat Vec3b) : Z -> Mat Z :=
  fun c => Mat_map (fun v => Vec3b_get v c) img.

(** [void sourceT::move(int x_pos, int y_pos)] *)
Definition move (s : sourceT) (x_pos y_pos : Z) : sourceT :=
  let o0 := x_pos - int_div (w s) 2 in
  let o1 := y_pos - int_div (h s) 2 in
  mk_sourceT (o0, o1) (x_pos, y_pos) (o0 + w s, o1 + h s)
             (w s) (h s) (imageRGB s) (channels s).

(** [sourceT::sourceT(Mat &imageRGB_, int x_pos, int y_pos)] *)
Definition sourceT_new (imageRGB_ : Mat Vec3b) (x_pos y_pos : Z) : sourceT :=
  let s := mk_sourceT (0, 0) (0, 0) (0, 0) (cols imageRGB_) (rows imageRGB_)
                      imageRGB_ (split imageRGB_) in
  move s x_pos y_pos.

Section OpenCV.
(** [cv::resize(img, rescaled, cv::Size(), factor, factor)] *)
Variable cv_resize : Mat Vec3b -> R -> Mat Vec3b.
(** The product of two doubles: the real product rounded to binary64.  The
    width and the height of the resized source are truncations of such
    products, and the truncation of the rounded product can differ from
    that of the exact one (5 * 0.6 is 3.0 as a double, and below 3 as a
    real number, 0.6 not being a double). *)
Variable double_mul : R -> R -> R.

(** [void sourceT::resize_area(double factor)] *)
Definition resize_area (s : sourceT) (factor : R) : sourceT :=
  let orig_xpos := fst (origin s) + int_div (w s) 2 in
  let orig_ypos := snd (origin s) + int_div (h s) 2 in
  let w' := int_of_double (double_mul (IZR (cols (imageRGB s))) factor) in
  let h' := int_of_double (double_mul (IZR (rows (imageRGB s))) factor) in
  let channels' :=
    if (w' >? 0) && (h' >? 0)
    then split (cv_resize (imageRGB s) factor)
    else channels s in
  let s := mk_sourceT (origin s) (pos s) (end_points s) w' h'
                      (imageRGB s) channels' in
  move s orig_xpos orig_ypos.
End OpenCV.

(** [bool sourceT::contains(double x_, double y_)] *)
Definition contains (s : sourceT) (x_ y_ : R) : bool :=
  let x := int_of_double x_ in
  let y := int_of_double (y_ + 0.5) in
  (fst (origin s) <? x) && (x <? fst (end_points s))
  && (snd (origin s) <? y) && (y <? snd (end_points s)).

(** Conversion of the [int] that [relocate] returns to [unsigned]; the
    way back, to the [int] that [at] takes, is [wrap_int]. *)
Definition to_unsigned (z : Z) : Z := z mod 2 ^ 32.

(** The body of the loop over the channels in
    [get_linear_interpolated_pixel].  The weighted sum is read as a real
    number; binary64 rounds its four products and three additions, so the
    byte of the code can be the integer below the one cut from the exact
    sum (254 for 255 on a channel that is 255 everywhere), which the
    properties of the sampler allow for. *)
Definition interpolate_channel (s : sourceT) (low1 low2 up1 up2 : Z)
                               (c00 c01 c10 c11 : R) (c : Z) (val_to_show : Vec3b) : Vec3b :=
  let I00 := Mat_at (channels s c) (wrap_int low2) (wrap_int low1) in
  let I01 := Mat_at (channels s c) (wrap_int low2) (wrap_int up1) in
  let I10 := Mat_at (channels s c) (wrap_int up2) (wrap_int low1) in
  let I11 := Mat_at (channels s c) (wrap_int up2) (wrap_int up1) in
  Vec3b_set val_to_show c
    (uchar_of_double (IZR I00 * c00 + IZR I01 * c01 + IZR I10 * c10 + IZR I11 * c11)).

(** [cv::Vec3b sourceT::get_linear_interpolated_pixel(double beta1,
    double beta2)].  The four weights are read as real numbers, which sum
    to 1; as doubles they do so up to rounding. *)
Definition get_linear_interpolated_pixel (s : sourceT) (beta1 beta2 : R) : Vec3b :=
  let val_to_show : Vec3b := (0, 0, 0) in
  if negb (contains s beta1 beta2) then val_to_show
  else
    let rel_beta1 := (beta1 - IZR (fst (origin s)))%R in
    let rel_beta2 := (beta2 - IZR (snd (origin s)))%R in
    let fl1 := floor rel_beta1 in
    let fl2 := floor rel_beta2 in
    let low1 := to_unsigned (relocate fl1 (w s)) in
    let low2 := to_unsigned (relocate fl2 (h s)) in
    let up1 := to_unsigned (relocate (fl1 + 1) (w s)) in
    let up2 := to_unsigned (relocate (fl2 + 1) (h s)) in
    let x := (rel_beta1 - fl1)%R in
    let y := (rel_beta2 - fl2)%R in
    let xy := (x * y)%R in
    let c00 := (1 - x - y + xy)%R in
    let c01 := (x - xy)%R in
    let c10 := (y - xy)%R in
    let c11 := xy in
    for_loop 0 3 (interpolate_channel s low1 low2 up1 up2 c00 c01 c10 c11)
             val_to_show.

End Source.

(** ** screen_io.h, renderer.cpp: the per-pixel renderer *)
Module Renderer.

(** The members of [screenT] that the renderer uses. *)
Record screenT : Type := mk_screenT {
  max_w : Z;
  lens : Lens.lensT;
  src : Source.sourceT;
  lensedRGB : Mat Vec3b;
  finalRGB : Mat Vec3b;
  overlay_mode : Z
}.

(** The two buffers the loop writes: [(lensedRGB, finalRGB)]. *)
Definition buffers : Type := (Mat Vec3b * Mat Vec3b)%type.

Definition show_cc (screen : screenT) : bool :=
  (overlay_mode screen >? 1) && (overlay_mode screen <=? 4).
Definition show_lens (screen : screenT) : bool :=
  (overlay_mode screen =? 1) || (overlay_mode screen =? 4).
Definition show_overlays (screen : screenT) : bool :=
  overlay_mode screen >? 0.

(** The loop over the channels that closes the body: the final pixel
    from the lensed one and the overlays. *)
Definition compose_channel (lensedRGB : Mat Vec3b) (i j overlay_sum c : Z)
                           (finalRGB : Mat Vec3b) : Mat Vec3b :=
  let final_val := Vec3b_get (Mat_at lensedRGB i j) c + overlay_sum in
  if final_val >? 255
  then Mat_set finalRGB i j (Vec3b_set (Mat_at finalRGB i j) c 255)
  else Mat_set finalRGB i j
               (Vec3b_set (Mat_at finalRGB i j) c (uchar_of_int final_val)).

(** The body from "Perform the raytracing" to its end. *)
Definition raytrace_and_compose (screen : screenT) (recompute_lensed : bool)
           (i j rel_j safe_i : Z) (fi : R) (overlay_sum : Z)
           (is_caustic_pixel : bool) (b : buffers) : buffers :=
  let '(lensedRGB, finalRGB) := b in
  let l := lens screen in
  let lensedRGB :=
    if recompute_lensed
    then
      let wd := IZR (Lens.w l) in
      let '(fj, safe_j) :=
        relocate_and_compute_exp_falloff rel_j (Lens.w l) (wd * 0.5) (wd - 1) in
      let '(beta1, beta2) := Lens.raytrace_pixel l j i safe_j safe_i (fi * fj) in
      Mat_set lensedRGB i j
              (Source.get_linear_interpolated_pixel (src screen) beta1 beta2)
    else lensedRGB in
  let finalRGB :=
    if negb is_caustic_pixel
    then for_loop 0 3 (compose_channel lensedRGB i j overlay_sum) finalRGB
    else finalRGB in
  (lensedRGB, finalRGB).

(** The body of the loop over [j]; each [continue] ends it early. *)
Definition render_pixel (screen : screenT) (recompute_lensed : bool)
           (i rel_i safe_i : Z) (fi : R) (j : Z) (b : buffers) : buffers :=
  let l := lens screen in
  let rel_j := j - fst (Lens.origin l) in
  let overlay_sum := 0 in
  let is_caustic_pixel := false in
  if show_overlays screen && Lens.contains l j i
  then
    let cc_px_value := if show_cc screen then Mat_at (Lens.cc_map l) rel_i rel_j else 0 in
    if show_cc screen && (cc_px_value >? 0)
       && ((cc_px_value =? 255) && negb recompute_lensed)
    then (fst b, Mat_set (snd b) i j (255, 255, 255))
    else
      let overlay_sum :=
        if show_cc screen && (cc_px_value >? 0)
        then overlay_sum + cc_px_value else overlay_sum in
      let is_caustic_pixel :=
        if Mat_at (Lens.caustic_map l) rel_i rel_j >? 0
        then show_cc screen else is_caustic_pixel in
      let b := if is_caustic_pixel
               then (fst b, Mat_set (snd b) i j (0, 0, 255)) else b in
      if is_caustic_pixel && negb recompute_lensed
      then b
      else
        let overlay_sum :=
          if show_lens screen
          then overlay_sum + Mat_at (Lens.kappa8u l) rel_i rel_j
          else overlay_sum in
        raytrace_and_compose screen recompute_lensed i j rel_j safe_i fi
                             overlay_sum is_caustic_pixel b
  else
    raytrace_and_compose screen recompute_lensed i j rel_j safe_i fi
                         overlay_sum is_caustic_pixel b.

(** The body of the loop over [i]. *)
Definition render_row (screen : screenT) (recompute_lensed : bool)
           (i : Z) (b : buffers) : buffers :=
  let l := lens screen in
  let hd := IZR (Lens.h l) in
  let rel_i := i - snd (Lens.origin l) in
  let '(fi, safe_i) :=
    if recompute_lensed
    then relocate_and_compute_exp_falloff rel_i (Lens.h l) (hd * 0.5) (hd - 1)
    else (1%R, 0) in
  for_loop 0 (max_w screen) (render_pixel screen recompute_lensed i rel_i safe_i fi) b.

(** [Parallel_renderer::operator()(const cv::Range &range)] *)
Definition Parallel_renderer (screen : screenT) (recompute_lensed : bool)
           (range_start range_end : Z) : screenT :=
  let '(lensedRGB, finalRGB) :=
    for_loop range_start range_end (render_row screen recompute_lensed)
             (lensedRGB screen, finalRGB screen) in
  mk_screenT (max_w screen) (lens screen) (src screen) lensedRGB finalRGB
             (overlay_mode screen).

End Renderer.

(** * Properties *)

(** ** Conversions and loops *)
Section CxxFacts.

Lemma int_of_double_nonneg (x : R) :
  (0 <= x)%R -> int_of_double x = Zfloor x.
Proof.
  intros Hx. unfold int_of_double. destruct (Rle_dec 0 x); [reflexivity | contradiction].
Qed.

Lemma int_of_double_neg (x : R) :
  (x < 0)%R -> int_of_double x = Zceil x.
Proof.
  intros Hx. unfold int_of_double. destruct (Rle_dec 0 x); [lra | reflexivity].
Qed.

Lemma int_of_double_IZR (z : Z) : int_of_double (IZR z) = z.
Proof.
  unfold int_of_double. destruct (Rle_dec 0 (IZR z)).
  - apply ZfloorZ.
  - unfold Zceil. rewrite ZfloorNZ. lia.
Qed.

(** Truncation of a non-negative double: the integer just below. *)
Lemma int_of_double_eq (x : R) (z : Z) :
  (0 <= x)%R -> (IZR z <= x < IZR z + 1)%R -> int_of_double x = z.
Proof.
  intros Hx Hz. rewrite int_of_double_nonneg by assumption. now apply Zfloor_eq.
Qed.

(** Truncation of a negative double: the integer just above. *)
Lemma int_of_double_eq_neg (x : R) (z : Z) :
  (x < 0)%R -> (IZR z - 1 < x <= IZR z)%R -> int_of_double x = z.
Proof.
  intros Hx Hz. rewrite int_of_double_neg by assumption. now apply Zceil_eq.
Qed.

Lemma int_of_double_half (z : Z) :
  0 <= z -> int_of_double (IZR z + 0.5) = z.
Proof.
  intros Hz. apply IZR_le in Hz. apply int_of_double_eq; lra.
Qed.

Lemma wrap_int_small (z : Z) : - 2 ^ 31 <= z < 2 ^ 31 -> wrap_int z = z.
Proof.
  intros Hz. unfold wrap_int. rewrite Z.mod_small; lia.
Qed.

Lemma wrap_size_t_small (z : Z) : 0 <= z < 2 ^ 64 -> wrap_size_t z = z.
Proof.
  intros Hz. unfold wrap_size_t. apply Z.mod_small. exact Hz.
Qed.

Lemma for_iter_snoc {S : Type} (body : Z -> S -> S) (n : nat) :
  forall (i : Z) (s : S),
    for_iter (Datatypes.S n) i body s
    = body (i + Z.of_nat n) (for_iter n i body s).
Proof.
  induction n as [| n IH]; intros i s.
  - simpl. now rewrite Z.add_0_r.
  - change (for_iter (Datatypes.S (Datatypes.S n)) i body s)
      with (for_iter (Datatypes.S n) (i + 1) body (body i s)).
    rewrite IH. simpl for_iter. f_equal. lia.
Qed.

Lemma for_loop_empty {S : Type} (lo hi : Z) (body : Z -> S -> S) (s : S) :
  hi <= lo -> for_loop lo hi body s = s.
Proof.
  intros H. unfold for_loop. replace (Z.to_nat (hi - lo)) with O by lia. reflexivity.
Qed.

Lemma for_loop_last {S : Type} (lo hi : Z) (body : Z -> S -> S) (s : S) :
  lo <= hi -> for_loop lo (hi + 1) body s = body hi (for_loop lo hi body s).
Proof.
  intros H. unfold for_loop.
  replace (Z.to_nat (hi + 1 - lo)) with (Datatypes.S (Z.to_nat (hi - lo))) by lia.
  rewrite for_iter_snoc. f_equal. lia.
Qed.

(** The invariant rule of a counted loop. *)
Lemma for_loop_invariant {S : Type} (P : Z -> S -> Prop)
      (lo hi : Z) (body : Z -> S -> S) (s : S) :
  lo <= hi ->
  P lo s ->
  (forall i t, lo <= i < hi -> P i t -> P (i + 1) (body i t)) ->
  P hi (for_loop lo hi body s).
Proof.
  intros Hle H0 Hstep.
  assert (Hn : forall n : nat, lo + Z.of_nat n <= hi ->
               P (lo + Z.of_nat n) (for_loop lo (lo + Z.of_nat n) body s)).
  { induction n as [| n IH]; intros Hb.
    - rewrite Z.add_0_r, for_loop_empty by lia. exact H0.
    - replace (lo + Z.of_nat (Datatypes.S n)) with (lo + Z.of_nat n + 1) by lia.
      rewrite for_loop_last by lia. apply Hstep; [lia | apply IH; lia]. }
  specialize (Hn (Z.to_nat (hi - lo))).
  replace (lo + Z.of_nat (Z.to_nat (hi - lo))) with hi in Hn by lia.
  apply Hn. lia.
Qed.

End CxxFacts.

(** ** Grids *)
Section MatFacts.
Context {T : Type}.

Lemma Mat_at_set_same (m : Mat T) (r c : Z) (v : T) :
  Mat_at (Mat_set m r c v) r c = v.
Proof. simpl. now rewrite !Z.eqb_refl. Qed.

Lemma Mat_at_set_other (m : Mat T) (r c r' c' : Z) (v : T) :
  r' <> r \/ c' <> c -> Mat_at (Mat_set m r c v) r' c' = Mat_at m r' c'.
Proof.
  intros H. simpl.
  destruct (Z.eqb_spec r' r), (Z.eqb_spec c' c); simpl; try reflexivity.
  destruct H; contradiction.
Qed.

Lemma Mat_at_set (m : Mat T) (r c r' c' : Z) (v : T) :
  Mat_at (Mat_set m r c v) r' c'
  = if (r' =? r) && (c' =? c) then v else Mat_at m r' c'.
Proof. reflexivity. Qed.

End MatFacts.

(** ** Relocation *)

Lemma relocate_int_range (x L : Z) : 1 <= L -> 0 <= relocate_int x L <= L - 1.
Proof.
  intros HL. unfold relocate_int.
  destruct (Z.ltb_spec x 0); [lia |].
  destruct (Z.geb_spec x L); lia.
Qed.

Lemma relocate_int_fixed (x L : Z) : 0 <= x <= L - 1 -> relocate_int x L = x.
Proof.
  intros Hx. unfold relocate_int.
  destruct (Z.ltb_spec x 0); [lia |].
  destruct (Z.geb_spec x L); lia.
Qed.

Lemma relocate_as_int (x : R) (L : Z) :
  relocate x L = relocate_int (int_of_double (x + 0.5)) L.
Proof. reflexivity. Qed.

Lemma relocate_IZR (z L : Z) : 0 <= z -> relocate (IZR z) L = relocate_int z L.
Proof.
  intros Hz. rewrite relocate_as_int. now rewrite int_of_double_half.
Qed.

(** C9: for an interval length [L >= 1], both overloads of [relocate]
    return a coordinate in [[0, L-1]], and relocating a relocated
    coordinate changes nothing, whether the second call is the [int]
    overload or the [double] one. *)
Theorem relocate_range_idempotent (L : Z) :
  1 <= L ->
  (forall x : R,
      0 <= relocate x L <= L - 1
      /\ relocate_int (relocate x L) L = relocate x L
      /\ relocate (IZR (relocate x L)) L = relocate x L)
  /\ (forall x : Z,
      0 <= relocate_int x L <= L - 1
      /\ relocate_int (relocate_int x L) L = relocate_int x L
      /\ relocate (IZR (relocate_int x L)) L = relocate_int x L).
Proof.
  intros HL. split; intros x.
  - rewrite relocate_as_int.
    pose proof (relocate_int_range (int_of_double (x + 0.5)) L HL) as Hr.
    split; [exact Hr |]. split.
    + now apply relocate_int_fixed.
    + rewrite relocate_IZR by lia. now apply relocate_int_fixed.
  - pose proof (relocate_int_range x L HL) as Hr.
    split; [exact Hr |]. split.
    + now apply relocate_int_fixed.
    + rewrite relocate_IZR by lia. now apply relocate_int_fixed.
Qed.

Lemma relocate_range_idempotent_witness :
  1 <= 3
  /\ ((forall x : R,
        0 <= relocate x 3 <= 3 - 1
        /\ relocate_int (relocate x 3) 3 = relocate x 3
        /\ relocate (IZR (relocate x 3)) 3 = relocate x 3)
      /\ (forall x : Z,
        0 <= relocate_int x 3 <= 3 - 1
        /\ relocate_int (relocate_int x 3) 3 = relocate_int x 3
        /\ relocate (IZR (relocate_int x 3)) 3 = relocate_int x 3)).
Proof.
  split; [lia | apply (relocate_range_idempotent 3); lia].
Defined.

(** ** Ray tracing *)

(** C1: at in-range indices of the deflection grids, [raytrace_pixel]
    returns the pixel minus weight times scale factor times deflection,
    and with the weight doubled (grids, indices and scale factor kept)
    the output lies twice as far from the input pixel. *)
Theorem raytrace_pixel_weight (l : Lens.lensT) (x1 x2 relX relY : Z) (s : R) :
  in_Mat (Lens.alpha1 l) relY relX ->
  in_Mat (Lens.alpha2 l) relY relX ->
  Lens.raytrace_pixel l x1 x2 relX relY s
  = ((IZR x1 - Lens.weight l * s * Mat_at (Lens.alpha1 l) relY relX)%R,
     (IZR x2 - Lens.weight l * s * Mat_at (Lens.alpha2 l) relY relX)%R)
  /\ (let y := Lens.raytrace_pixel l x1 x2 relX relY s in
      let y' := Lens.raytrace_pixel
                  (Lens.with_weight l (2 * Lens.weight l)) x1 x2 relX relY s in
      fst y' - IZR x1 = 2 * (fst y - IZR x1)
      /\ snd y' - IZR x2 = 2 * (snd y - IZR x2))%R.
Proof.
  intros _ _. unfold Lens.raytrace_pixel. simpl. split.
  - f_equal; ring.
  - split; ring.
Qed.

(** A lens of one cell, deflection (3, 5), weight 2. *)
Definition lens_1x1 : Lens.lensT :=
  Lens.mk_lensT (0, 0) (1, 1) 1 1
    (mkMat 1 1 (fun _ _ => 0%R)) (mkMat 1 1 (fun _ _ => 3%R))
    (mkMat 1 1 (fun _ _ => 5%R)) (mkMat 1 1 (fun _ _ => 0%R))
    (mkMat 1 1 (fun _ _ => 0)) (mkMat 1 1 (fun _ _ => 0%R))
    (mkMat 1 1 (fun _ _ => 0)) (mkMat 1 1 (fun _ _ => 0)) 2%R.

Lemma raytrace_pixel_weight_witness :
  Lens.raytrace_pixel lens_1x1 7 9 0 0 1
  = ((IZR 7 - Lens.weight lens_1x1 * 1 * Mat_at (Lens.alpha1 lens_1x1) 0 0)%R,
     (IZR 9 - Lens.weight lens_1x1 * 1 * Mat_at (Lens.alpha2 lens_1x1) 0 0)%R)
  /\ (let y := Lens.raytrace_pixel lens_1x1 7 9 0 0 1 in
      let y' := Lens.raytrace_pixel
                  (Lens.with_weight lens_1x1 (2 * Lens.weight lens_1x1)) 7 9 0 0 1 in
      fst y' - IZR 7 = 2 * (fst y - IZR 7)
      /\ snd y' - IZR 9 = 2 * (snd y - IZR 9))%R.
Proof.
  apply (raytrace_pixel_weight lens_1x1 7 9 0 0 1); unfold in_Mat; simpl; lia.
Defined.

(** ** Fall-off *)

Lemma exp_lt_1 (x : R) : (x < 0)%R -> (exp x < 1)%R.
Proof. intros Hx. rewrite <- exp_0. now apply exp_increasing. Qed.

Lemma exp_monotone (x y : R) : (x <= y)%R -> (exp x <= exp y)%R.
Proof.
  intros Hxy. destruct (Req_dec x y) as [-> | Hne]; [lra |].
  left. apply exp_increasing. lra.
Qed.

Lemma exp_nat (n : nat) : exp (INR n) = (exp 1 ^ n)%R.
Proof.
  induction n as [| n IH].
  - simpl. apply exp_0.
  - rewrite S_INR, exp_plus, IH. simpl. ring.
Qed.

(** [exp(600)] is below 2^1075, and [exp(1500)] is not. *)
Lemma exp_600 : (exp 600 < 2 ^ 1075)%R.
Proof.
  replace 600%R with (INR 600) by (rewrite INR_IZR_INZ; reflexivity).
  rewrite exp_nat.
  apply Rle_lt_trans with (3 ^ 600)%R.
  - apply pow_incr. split; [left; apply exp_pos | apply exp_le_3].
  - rewrite !pow_IZR. apply IZR_lt. reflexivity.
Qed.

Lemma exp_1500 : (2 ^ 1075 <= exp 1500)%R.
Proof.
  replace 1500%R with (INR 1500) by (rewrite INR_IZR_INZ; reflexivity).
  rewrite exp_nat.
  apply Rle_trans with (2 ^ 1500)%R.
  - apply Rle_pow; [lra | lia].
  - apply pow_incr. split; [lra |]. pose proof (exp_ineq1 1). lra.
Qed.

(** Down to -600 the exponential of the code is the exponential. *)
Lemma double_exp_exact (x : R) : (-600 <= x)%R -> double_exp x = exp x.
Proof.
  intros Hx. unfold double_exp. destruct (Rle_dec _ _) as [H | H]; [| reflexivity].
  exfalso.
  pose proof (exp_monotone _ _ Hx) as H1.
  replace (-600)%R with (Ropp 600) in H1 by lra. rewrite exp_Ropp in H1.
  pose proof exp_600 as H2. pose proof (exp_pos 600) as H3.
  assert (H4 : (/ 2 ^ 1075 < / exp 600)%R).
  { apply Rinv_lt_contravar; [| exact H2].
    apply Rmult_lt_0_compat; [exact H3 |]. apply pow_lt. lra. }
  lra.
Qed.

(** From -1500 on it is 0. *)
Lemma double_exp_underflow (x : R) : (x <= -1500)%R -> double_exp x = 0%R.
Proof.
  intros Hx. unfold double_exp. destruct (Rle_dec _ _) as [H | H]; [reflexivity |].
  exfalso. apply H.
  pose proof (exp_monotone _ _ Hx) as H1.
  replace (-1500)%R with (Ropp 1500) in H1 by lra. rewrite exp_Ropp in H1.
  pose proof exp_1500 as H2.
  assert (H4 : (/ exp 1500 <= / 2 ^ 1075)%R).
  { apply Rinv_le_contravar; [apply pow_lt; lra | exact H2]. }
  lra.
Qed.

Lemma double_exp_range (x : R) : (x < 0)%R -> (0 <= double_exp x < 1)%R.
Proof.
  intros Hx. unfold double_exp. destruct (Rle_dec _ _) as [H | H]; [lra |].
  pose proof (exp_pos x). pose proof (exp_lt_1 x Hx). lra.
Qed.

Lemma div_neg_pos (a b : R) : (a < 0)%R -> (0 < b)%R -> (a / b < 0)%R.
Proof.
  intros Ha Hb. unfold Rdiv.
  assert (0 < / b)%R by now apply Rinv_0_lt_compat. nra.
Qed.

Lemma div_lt_pos (a a' b : R) : (a < a')%R -> (0 < b)%R -> (a / b < a' / b)%R.
Proof.
  intros Ha Hb. unfold Rdiv.
  assert (0 < / b)%R by now apply Rinv_0_lt_compat. nra.
Qed.

(** The weight alone, for a length [len] with [lm1 = len - 1]. *)
Definition fall_off_weight (rel_px len : Z) (half : R) : R :=
  fst (relocate_and_compute_exp_falloff rel_px len half (IZR len - 1)).

(** How far outside the interval a coordinate lies, with a minus sign. *)
Definition excess (rel_px len : Z) : R :=
  (- IZR (Z.abs (rel_px - relocate_int rel_px len)))%R.

Lemma excess_below (rel_px len : Z) : rel_px < 0 -> excess rel_px len = IZR rel_px.
Proof.
  intros H. unfold excess, relocate_int.
  destruct (Z.ltb_spec rel_px 0); [| lia].
  rewrite Z.sub_0_r, Z.abs_neq by lia. rewrite opp_IZR. ring.
Qed.

Lemma excess_above (rel_px len : Z) :
  0 <= len <= rel_px -> excess rel_px len = (IZR len - 1 - IZR rel_px)%R.
Proof.
  intros H. unfold excess, relocate_int.
  destruct (Z.ltb_spec rel_px 0); [lia |].
  destruct (Z.geb_spec rel_px len); [| lia].
  rewrite Z.abs_eq by lia. rewrite !minus_IZR. simpl. ring.
Qed.

Lemma fall_off_weight_outside (rel_px len : Z) (half : R) :
  0 <= len -> ~ 0 <= rel_px < len ->
  fall_off_weight rel_px len half = double_exp (excess rel_px len / half).
Proof.
  intros Hlen Hout. unfold fall_off_weight, relocate_and_compute_exp_falloff.
  destruct (Z.ltb_spec rel_px 0) as [Hneg | Hnn].
  - now rewrite excess_below.
  - destruct (Z.geb_spec rel_px len); [| lia].
    rewrite excess_above by lia. reflexivity.
Qed.

Lemma excess_negative (rel_px len : Z) :
  1 <= len -> ~ 0 <= rel_px < len -> (excess rel_px len <= -1)%R.
Proof.
  intros Hlen Hout. destruct (Z.lt_ge_cases rel_px 0) as [Hneg | Hnn].
  - rewrite excess_below by exact Hneg. apply IZR_le. lia.
  - rewrite excess_above by lia.
    assert (IZR len <= IZR rel_px)%R by (apply IZR_le; lia). lra.
Qed.

(** C2, as the code has it: for an [int] length [len >= 1], [half = len/2]
    and [lm1 = len - 1], inside [[0, len)] the weight is 1 and the
    coordinate comes back unchanged.  Outside, the weight is at least 0 and
    below 1 and is the exponential of the code ([double_exp]) of
    [excess/half], where [excess] is minus the distance to the nearest cell
    of the interval; it is the value of [exp_fall_off] too.  As long as
    [excess/half] is at least -600 the weight is positive, is the
    exponential itself, and gets strictly smaller further out on either
    side. *)
Theorem fall_off_weight_profile (len rel_px : Z) :
  1 <= len < 2 ^ 31 ->
  - 2 ^ 31 <= rel_px < 2 ^ 31 ->
  let half := (IZR len * 0.5)%R in
  let r := relocate_and_compute_exp_falloff rel_px len half (IZR len - 1) in
  (0 <= rel_px < len -> r = (1%R, rel_px))
  /\ (~ 0 <= rel_px < len ->
      (0 <= fst r < 1)%R
      /\ fst r = double_exp (excess rel_px len / half)
      /\ fst r = exp_fall_off rel_px len half (IZR len - 1)
      /\ ((-600 <= excess rel_px len / half)%R ->
          (0 < fst r)%R /\ fst r = exp (excess rel_px len / half)))
  /\ (forall rel_px' : Z,
        - 2 ^ 31 <= rel_px' < 2 ^ 31 ->
        rel_px' < rel_px < 0 \/ len <= rel_px < rel_px' ->
        (-600 <= excess rel_px' len / half)%R ->
        (fall_off_weight rel_px' len half < fst r)%R).
Proof.
  intros Hlen Hint half r.
  assert (Hhalf : (0 < half)%R).
  { subst half. assert (1 <= IZR len)%R by (apply IZR_le; lia). lra. }
  fold (fall_off_weight rel_px len half) in r. subst r.
  split; [| split].
  - intros Hin. unfold fall_off_weight, relocate_and_compute_exp_falloff.
    destruct (Z.ltb_spec rel_px 0); [lia |].
    destruct (Z.geb_spec rel_px len); [lia | reflexivity].
  - intros Hout. fold (fall_off_weight rel_px len half).
    rewrite fall_off_weight_outside by (lia || exact Hout).
    pose proof (excess_negative rel_px len ltac:(lia) Hout) as Hex.
    assert (Hneg : (excess rel_px len / half < 0)%R) by (apply div_neg_pos; lra).
    split; [now apply double_exp_range |]. split; [reflexivity |]. split.
    + unfold exp_fall_off.
      destruct (Z.ltb_spec rel_px 0) as [Hlt | Hnn].
      * rewrite excess_below by exact Hlt. ring.
      * destruct (Z.geb_spec rel_px len); [| lia].
        rewrite excess_above by lia. ring.
    + intros Hbig. rewrite double_exp_exact by exact Hbig.
      split; [apply exp_pos | reflexivity].
  - intros rel_px' Hint' Hside Hbig. fold (fall_off_weight rel_px len half).
    assert (Hout : ~ 0 <= rel_px < len) by lia.
    assert (Hout' : ~ 0 <= rel_px' < len) by lia.
    rewrite !fall_off_weight_outside by (lia || assumption).
    assert (Hlt : (excess rel_px' len < excess rel_px len)%R).
    { destruct Hside as [[H1 H2] | [H1 H2]].
      - rewrite !excess_below by lia. now apply IZR_lt.
      - rewrite !excess_above by lia. apply IZR_lt in H2. lra. }
    pose proof (div_lt_pos _ _ half Hlt Hhalf) as Hdiv.
    rewrite !double_exp_exact by lra.
    now apply exp_increasing.
Qed.

(** C2 as stated fails far outside the interval: at 1500 cells below an
    interval of length 2 the exponential underflows, the weight is 0 and
    not inside (0, 1), and one cell further out it is 0 again and not
    smaller. *)
Lemma fall_off_weight_underflow :
  ~ 0 <= -1500 < 2
  /\ fst (relocate_and_compute_exp_falloff (-1500) 2 (IZR 2 * 0.5) (IZR 2 - 1)) = 0%R
  /\ ~ (0 < fst (relocate_and_compute_exp_falloff (-1500) 2 (IZR 2 * 0.5) (IZR 2 - 1))
        < 1)%R
  /\ ~ (fst (relocate_and_compute_exp_falloff (-1501) 2 (IZR 2 * 0.5) (IZR 2 - 1))
        < fst (relocate_and_compute_exp_falloff (-1500) 2 (IZR 2 * 0.5) (IZR 2 - 1)))%R.
Proof.
  assert (H0 : fall_off_weight (-1500) 2 (IZR 2 * 0.5) = 0%R).
  { rewrite fall_off_weight_outside by lia. rewrite excess_below by lia.
    apply double_exp_underflow. lra. }
  assert (H1 : fall_off_weight (-1501) 2 (IZR 2 * 0.5) = 0%R).
  { rewrite fall_off_weight_outside by lia. rewrite excess_below by lia.
    apply double_exp_underflow. lra. }
  unfold fall_off_weight in H0, H1.
  split; [lia |]. split; [exact H0 |]. rewrite H0, H1. split; lra.
Qed.

Lemma fall_off_weight_profile_witness :
  (1 <= 4 < 2 ^ 31 /\ - 2 ^ 31 <= -1 < 2 ^ 31)
  /\ (~ 0 <= -1 < 4 /\ (-600 <= excess (-1) 4 / (IZR 4 * 0.5))%R)
  /\ (- 2 ^ 31 <= -2 < 2 ^ 31 /\ (-600 <= excess (-2) 4 / (IZR 4 * 0.5))%R)
  /\ (0 < fst (relocate_and_compute_exp_falloff (-1) 4 (IZR 4 * 0.5) (IZR 4 - 1)))%R
  /\ (fall_off_weight (-2) 4 (IZR 4 * 0.5)
      < fst (relocate_and_compute_exp_falloff (-1) 4 (IZR 4 * 0.5) (IZR 4 - 1)))%R.
Proof.
  assert (Hlen : 1 <= 4 < 2 ^ 31) by lia.
  assert (Hint : - 2 ^ 31 <= -1 < 2 ^ 31) by lia.
  assert (Hout : ~ 0 <= -1 < 4) by lia.
  assert (Hbig : (-600 <= excess (-1) 4 / (IZR 4 * 0.5))%R)
    by (rewrite excess_below by lia; lra).
  assert (Hint' : - 2 ^ 31 <= -2 < 2 ^ 31) by lia.
  assert (Hbig' : (-600 <= excess (-2) 4 / (IZR 4 * 0.5))%R)
    by (rewrite excess_below by lia; lra).
  split; [exact (conj Hlen Hint) |]. split; [exact (conj Hout Hbig) |].
  split; [exact (conj Hint' Hbig') |].
  destruct (fall_off_weight_profile 4 (-1) Hlen Hint) as (_ & Hw & Hstep).
  split.
  - exact (proj1 (proj2 (proj2 (proj2 (Hw Hout))) Hbig)).
  - exact (Hstep (-2) Hint' (or_introl (conj eq_refl eq_refl)) Hbig').
Defined.

(** ** Geometry of lens and source *)

(** The placement of a lens of size [w] x [h] around the centre [(cx, cy)]. *)
Definition lens_geometry (l : Lens.lensT) (cx cy : Z) : Prop :=
  Lens.origin l = (cx - int_div (Lens.w l) 2, cy - int_div (Lens.h l) 2)
  /\ Lens.end_points l
     = (fst (Lens.origin l) + Lens.w l, snd (Lens.origin l) + Lens.h l).

(** The placement of a source around its recorded centre [pos]. *)
Definition source_geometry (s : Source.sourceT) : Prop :=
  Source.origin s
  = (fst (Source.pos s) - int_div (Source.w s) 2,
     snd (Source.pos s) - int_div (Source.h s) 2)
  /\ Source.end_points s
     = (fst (Source.origin s) + Source.w s, snd (Source.origin s) + Source.h s).

(** What the later steps of the constructor leave alone. *)
Definition same_frame (l l' : Lens.lensT) : Prop :=
  Lens.origin l' = Lens.origin l /\ Lens.end_points l' = Lens.end_points l
  /\ Lens.w l' = Lens.w l /\ Lens.h l' = Lens.h l.

Lemma same_frame_refl (l : Lens.lensT) : same_frame l l.
Proof. repeat split. Qed.

Lemma same_frame_trans (l1 l2 l3 : Lens.lensT) :
  same_frame l1 l2 -> same_frame l2 l3 -> same_frame l1 l3.
Proof.
  unfold same_frame. intros (A & B & C & D) (A' & B' & C' & D').
  repeat split; congruence.
Qed.

Lemma update_cc_and_caustics_frame
      (blur : Mat R -> Mat R) (contours : Mat Z -> Mat Z)
      (l : Lens.lensT) (radial : bool) :
  same_frame l (LensBuild.update_cc_and_caustics blur contours l radial).
Proof.
  unfold LensBuild.update_cc_and_caustics.
  destruct (cols (Lens.shear l) =? 0); repeat split.
Qed.

Lemma lensT_new_frame
      (dftsize : Z -> Z) (conv : Mat R -> Mat R -> Mat R)
      (blur : Mat R -> Mat R) (contours : Mat Z -> Mat Z)
      (kappa_in : LensBuild.kappa_input) (x y : Z) :
  same_frame (Lens.move (LensBuild.lensT_init kappa_in) x y)
             (LensBuild.lensT_new dftsize conv blur contours kappa_in x y).
Proof.
  unfold LensBuild.lensT_new.
  destruct (LensBuild.store_kappa kappa_in) as [k k8].
  eapply same_frame_trans; [| apply update_cc_and_caustics_frame].
  repeat split.
Qed.

Lemma lens_move_geometry (l : Lens.lensT) (x y : Z) :
  lens_geometry (Lens.move l x y) x y
  /\ Lens.w (Lens.move l x y) = Lens.w l /\ Lens.h (Lens.move l x y) = Lens.h l.
Proof. repeat split. Qed.

Lemma source_move_geometry (s : Source.sourceT) (x y : Z) :
  source_geometry (Source.move s x y)
  /\ Source.pos (Source.move s x y) = (x, y)
  /\ Source.w (Source.move s x y) = Source.w s
  /\ Source.h (Source.move s x y) = Source.h s.
Proof. repeat split. Qed.

(** C10: the constructors and every operation that changes the geometry
    leave [origin = centre - size/2] (integer division) and
    [end_points = origin + size] on both axes; for the source the centre
    is the recorded [pos], and [resize_area] re-establishes both for the
    new width and height (the truncated products of the image size and the
    factor, as binary64 rounds them) and, on a source placed that way,
    keeps [pos]. *)
Theorem geometry_invariant :
  (forall dftsize conv blur contours kappa_in x y,
      let l := LensBuild.lensT_new dftsize conv blur contours kappa_in x y in
      lens_geometry l x y
      /\ Lens.w l = LensBuild.input_cols kappa_in
      /\ Lens.h l = LensBuild.input_rows kappa_in)
  /\ (forall l x y,
      lens_geometry (Lens.move l x y) x y
      /\ Lens.w (Lens.move l x y) = Lens.w l
      /\ Lens.h (Lens.move l x y) = Lens.h l)
  /\ (forall img x y,
      let s := Source.sourceT_new img x y in
      source_geometry s /\ Source.pos s = (x, y)
      /\ Source.w s = cols img /\ Source.h s = rows img)
  /\ (forall s x y,
      source_geometry (Source.move s x y)
      /\ Source.pos (Source.move s x y) = (x, y)
      /\ Source.w (Source.move s x y) = Source.w s
      /\ Source.h (Source.move s x y) = Source.h s)
  /\ (forall cv_resize double_mul s factor,
      let s' := Source.resize_area cv_resize double_mul s factor in
      source_geometry s'
      /\ Source.w s'
         = int_of_double (double_mul (IZR (cols (Source.imageRGB s))) factor)
      /\ Source.h s'
         = int_of_double (double_mul (IZR (rows (Source.imageRGB s))) factor)
      /\ (source_geometry s -> Source.pos s' = Source.pos s)).
Proof.
  split; [| split; [| split; [| split]]].
  - intros dftsize conv blur contours kappa_in x y l.
    destruct (lensT_new_frame dftsize conv blur contours kappa_in x y)
      as (Ho & He & Hw & Hh).
    fold l in Ho, He, Hw, Hh.
    unfold lens_geometry. rewrite Ho, He, Hw, Hh. repeat split.
  - apply lens_move_geometry.
  - intros img x y s. repeat split.
  - apply source_move_geometry.
  - intros cv_resize double_mul s factor s'. repeat split.
    intros [Ho _]. subst s'. unfold Source.resize_area, Source.move. cbn [Source.pos].
    rewrite Ho. cbn [fst snd]. destruct (Source.pos s) as [p0 p1]. cbn [fst snd].
    f_equal; lia.
Qed.

(** A 4 x 2 image of black pixels, as a source centred at (10, 20). *)
Definition source_4x2 : Source.sourceT :=
  Source.sourceT_new (mkMat 2 4 (fun _ _ => (0, 0, 0))) 10 20.

(** The factor 3: the products 4 * 3 and 2 * 3 are exact as doubles. *)
Lemma geometry_invariant_witness :
  source_geometry source_4x2
  /\ Source.pos (Source.resize_area (fun m _ => m) Rmult source_4x2 3) = (10, 20).
Proof.
  split.
  - repeat split.
  - exact (proj2 (proj2 (proj2
            (proj2 (proj2 (proj2 (proj2 geometry_invariant)))
                   (fun m _ => m) Rmult source_4x2 3%R)))
            (conj eq_refl eq_refl)).
Defined.

(** ** Finite differences *)

(** The central differences along a row and along a column. *)
Definition central_x (f : Mat R) (r c : Z) : R :=
  ((Mat_at f r (c + 1) - Mat_at f r (c - 1)) / 2)%R.
Definition central_y (f : Mat R) (r c : Z) : R :=
  ((Mat_at f (r + 1) c - Mat_at f (r - 1) c) / 2)%R.

(** The index whose derivative a cell receives: itself, or the nearest
    index at least two cells away from both edges. *)
Definition replicated (n k : Z) : Z :=
  if k <? 2 then 2 else if n - 3 <? k then n - 3 else k.

Ltac zbool :=
  repeat match goal with
         | |- context [Z.eqb ?a ?b] => destruct (Z.eqb_spec a b)
         | |- context [Z.ltb ?a ?b] => destruct (Z.ltb_spec a b)
         | |- context [Z.leb ?a ?b] => destruct (Z.leb_spec a b)
         | |- context [Z.gtb ?a ?b] => destruct (Z.gtb_spec a b)
         | |- context [Z.geb ?a ?b] => destruct (Z.geb_spec a b)
         end;
  cbn [andb orb negb]; try lia; try reflexivity; try (exfalso; lia).

Lemma finite_difference_x (f : Mat R) (r c : Z) :
  0 <= r < rows f -> 1 <= c <= cols f - 2 ->
  Mat_at (half_diff (translateImg f 1 ShiftRight) (translateImg f 1 ShiftLeft)) r c
  = central_x f r c.
Proof.
  intros Hr Hc.
  unfold central_x, half_diff, translateImg, copy_rect, Mat_map2, Mat_zeros.
  cbn [Mat_at rows cols]. zbool.
  replace (c - 0 + 1) with (c + 1) by lia.
  replace (r - 0 + 0) with r by lia.
  replace (c - 1 + 0) with (c - 1) by lia. reflexivity.
Qed.

Lemma finite_difference_y (f : Mat R) (r c : Z) :
  1 <= r <= rows f - 2 -> 0 <= c < cols f ->
  Mat_at (half_diff (translateImg f 1 ShiftUp) (translateImg f 1 ShiftDown)) r c
  = central_y f r c.
Proof.
  intros Hr Hc.
  unfold central_y, half_diff, translateImg, copy_rect, Mat_map2, Mat_zeros.
  cbn [Mat_at rows cols]. zbool.
  replace (r - 0 + 1) with (r + 1) by lia.
  replace (c - 0 + 0) with c by lia.
  replace (r - 1 + 0) with (r - 1) by lia. reflexivity.
Qed.

(** The border loop of [deriv_x]: rows below [k] are done, the others
    untouched. *)
Lemma deriv_x_border_loop (res : Mat R) (n : Z) :
  5 <= n ->
  let out := for_loop 0 (rows res) (deriv_x_border n) res in
  rows out = rows res /\ cols out = cols res
  /\ forall r c, 0 <= r < rows res -> 0 <= c < n ->
                 Mat_at out r c = Mat_at res r (replicated n c).
Proof.
  intros Hn out.
  destruct (Z.le_gt_cases 0 (rows res)) as [Hrows | Hrows].
  2: { subst out. rewrite for_loop_empty by lia. repeat split. intros; lia. }
  pose (P := fun (k : Z) (m : Mat R) =>
               rows m = rows res /\ cols m = cols res
               /\ forall r c, 0 <= c < n ->
                   Mat_at m r c
                   = if (0 <=? r) && (r <? k)
                     then Mat_at res r (replicated n c) else Mat_at res r c).
  assert (HP : P (rows res) out).
  { apply for_loop_invariant; [exact Hrows | |].
    - repeat split. intros r c Hc. zbool.
    - intros i t Hi (Hr & Hcol & Hcell). repeat split; [exact Hr | exact Hcol |].
      intros r c Hc. unfold deriv_x_border. rewrite !Mat_at_set.
      rewrite !(Hcell i) by lia. rewrite (Hcell r c Hc).
      unfold replicated. zbool; subst; try reflexivity; try lia. }
  destruct HP as (Hr & Hcol & Hcell). repeat split; [exact Hr | exact Hcol |].
  intros r c Hr' Hc. rewrite (Hcell r c Hc). zbool.
Qed.

Lemma deriv_y_border_loop (res : Mat R) (n : Z) :
  5 <= n ->
  let out := for_loop 0 (cols res) (deriv_y_border n) res in
  rows out = rows res /\ cols out = cols res
  /\ forall r c, 0 <= r < n -> 0 <= c < cols res ->
                 Mat_at out r c = Mat_at res (replicated n r) c.
Proof.
  intros Hn out.
  destruct (Z.le_gt_cases 0 (cols res)) as [Hcols | Hcols].
  2: { subst out. rewrite for_loop_empty by lia. repeat split. intros; lia. }
  pose (P := fun (k : Z) (m : Mat R) =>
               rows m = rows res /\ cols m = cols res
               /\ forall r c, 0 <= r < n ->
                   Mat_at m r c
                   = if (0 <=? c) && (c <? k)
                     then Mat_at res (replicated n r) c else Mat_at res r c).
  assert (HP : P (cols res) out).
  { apply for_loop_invariant; [exact Hcols | |].
    - repeat split. intros r c Hc. zbool.
    - intros i t Hi (Hr & Hcol & Hcell). repeat split; [exact Hr | exact Hcol |].
      intros r c Hc. unfold deriv_y_border. rewrite !Mat_at_set.
      rewrite !(fun r H => Hcell r i H) by lia. rewrite (Hcell r c Hc).
      unfold replicated. zbool; subst; try reflexivity; try lia. }
  destruct HP as (Hr & Hcol & Hcell). repeat split; [exact Hr | exact Hcol |].
  intros r c Hr' Hc. rewrite (Hcell r c Hr'). zbool.
Qed.

(** C7: on a grid of at least 5 columns, [deriv_x] first holds the central
    difference at every interior cell, and returns a grid of the same size
    whose cell in column [c] is the central difference of the input at
    column [c] for [2 <= c <= cols-3], at column 2 for the two columns of
    the low edge and at column [cols-3] for the two of the high edge; every
    cell is thus a central difference of two cells of the input.  [deriv_y]
    does the same along columns on a grid of at least 5 rows. *)
Theorem deriv_replicates_border (input : Mat R) :
  (5 <= cols input ->
   (forall r c, 0 <= r < rows input -> 1 <= c <= cols input - 2 ->
       Mat_at (half_diff (translateImg input 1 ShiftRight)
                         (translateImg input 1 ShiftLeft)) r c
       = central_x input r c)
   /\ rows (deriv_x input) = rows input
   /\ cols (deriv_x input) = cols input
   /\ forall r c, 0 <= r < rows input -> 0 <= c < cols input ->
       Mat_at (deriv_x input) r c = central_x input r (replicated (cols input) c)
       /\ 2 <= replicated (cols input) c <= cols input - 3
       /\ (2 <= c <= cols input - 3 -> replicated (cols input) c = c)
       /\ (c < 2 -> replicated (cols input) c = 2)
       /\ (cols input - 3 < c -> replicated (cols input) c = cols input - 3))
  /\ (5 <= rows input ->
   (forall r c, 1 <= r <= rows input - 2 -> 0 <= c < cols input ->
       Mat_at (half_diff (translateImg input 1 ShiftUp)
                         (translateImg input 1 ShiftDown)) r c
       = central_y input r c)
   /\ rows (deriv_y input) = rows input
   /\ cols (deriv_y input) = cols input
   /\ forall r c, 0 <= r < rows input -> 0 <= c < cols input ->
       Mat_at (deriv_y input) r c = central_y input (replicated (rows input) r) c
       /\ 2 <= replicated (rows input) r <= rows input - 3
       /\ (2 <= r <= rows input - 3 -> replicated (rows input) r = r)
       /\ (r < 2 -> replicated (rows input) r = 2)
       /\ (rows input - 3 < r -> replicated (rows input) r = rows input - 3)).
Proof.
  split; intros Hn.
  - split; [intros r c Hr Hc; now apply finite_difference_x |].
    unfold deriv_x.
    set (res := half_diff (translateImg input 1 ShiftRight)
                          (translateImg input 1 ShiftLeft)).
    change (cols res) with (cols input). 
    destruct (deriv_x_border_loop res (cols input) Hn) as (Hr & Hc & Hcell).
    change (rows res) with (rows input) in *. change (cols res) with (cols input) in *.
    split; [exact Hr |]. split; [exact Hc |].
    intros r c Hr' Hc'.
    assert (Hrep : 2 <= replicated (cols input) c <= cols input - 3)
      by (unfold replicated; zbool).
    split; [| split; [exact Hrep | unfold replicated; repeat split; intros; zbool]].
    rewrite (Hcell r c Hr' Hc'). apply finite_difference_x; lia.
  - split; [intros r c Hr Hc; now apply finite_difference_y |].
    unfold deriv_y.
    set (res := half_diff (translateImg input 1 ShiftUp)
                          (translateImg input 1 ShiftDown)).
    change (rows res) with (rows input).
    destruct (deriv_y_border_loop res (rows input) Hn) as (Hr & Hc & Hcell).
    change (rows res) with (rows input) in *. change (cols res) with (cols input) in *.
    split; [exact Hr |]. split; [exact Hc |].
    intros r c Hr' Hc'.
    assert (Hrep : 2 <= replicated (rows input) r <= rows input - 3)
      by (unfold replicated; zbool).
    split; [| split; [exact Hrep | unfold replicated; repeat split; intros; zbool]].
    rewrite (Hcell r c Hr' Hc'). apply finite_difference_y; lia.
Qed.

(** ** The Green's function kernel *)

(** The distance of index [a] from index 0 on a ring of [n] cells, in
    units of cells: the offset of the quadrant the index lies in. *)
Definition offset (n a : Z) : Z := if a <=? n / 2 then a else n - a.

(** The index opposite to [a], for the rotation by 180 degrees. *)
Definition opposite (n a : Z) : Z := (n - a) mod n.

(** The value the specification gives for the offsets [i], [j]. *)
Definition green_spec (i j : Z) : R :=
  if (i =? 0) && (j =? 0) then (-1.4658711977588554)%R
  else (ln (sqrt (IZR (i * i + j * j))) / PI)%R.

(** The largest [i] whose square fits an [int]. *)
Definition max_sq_int : Z := 46340.

Lemma offset_range (n a : Z) :
  1 <= n -> 0 <= a < n -> 0 <= offset n a <= n / 2.
Proof.
  intros Hn Ha. unfold offset.
  pose proof (Z.div_mod n 2 ltac:(lia)) as Hd.
  pose proof (Z.mod_pos_bound n 2 ltac:(lia)) as Hm.
  destruct (Z.leb_spec a (n / 2)); lia.
Qed.

Lemma offset_opposite (n a : Z) :
  1 <= n -> 0 <= a < n -> offset n (opposite n a) = offset n a.
Proof.
  intros Hn Ha. unfold opposite.
  pose proof (Z.div_mod n 2 ltac:(lia)) as Hd.
  pose proof (Z.mod_pos_bound n 2 ltac:(lia)) as Hm.
  destruct (Z.eq_dec a 0) as [-> | Hnz].
  - rewrite Z.sub_0_r, Z.mod_same by lia. reflexivity.
  - rewrite Z.mod_small by lia. unfold offset.
    destruct (Z.leb_spec (n - a) (n / 2)), (Z.leb_spec a (n / 2)); lia.
Qed.

Lemma opposite_range (n a : Z) : 1 <= n -> 0 <= opposite n a < n.
Proof. intros Hn. unfold opposite. apply Z.mod_pos_bound. lia. Qed.

(** One step of the inner loop writes [val] to the cells at offsets
    [(i, j)] and to no other. *)
Lemma fill_green_cell_at (X Y i j : Z) (g : Mat R) (a b : Z) :
  1 <= X < 2 ^ 31 -> 1 <= Y < 2 ^ 31 ->
  0 <= i <= Y / 2 -> 0 <= j <= X / 2 ->
  0 <= a < Y -> 0 <= b < X ->
  Mat_at (fill_green_cell X Y i j g) a b
  = if (offset Y a =? i) && (offset X b =? j)
    then green_val i j else Mat_at g a b.
Proof.
  intros HX HY Hi Hj Ha Hb.
  pose proof (Z.div_mod X 2 ltac:(lia)) as HdX.
  pose proof (Z.mod_pos_bound X 2 ltac:(lia)) as HmX.
  pose proof (Z.div_mod Y 2 ltac:(lia)) as HdY.
  pose proof (Z.mod_pos_bound Y 2 ltac:(lia)) as HmY.
  unfold fill_green_cell, offset.
  rewrite !wrap_size_t_small by lia.
  generalize dependent (X / 2). generalize dependent (Y / 2). intros y2 ? ? x2 ? ?.
  destruct (Z.leb_spec a y2), (Z.leb_spec b x2);
    destruct (Z.eqb_spec i 0), (Z.eqb_spec j 0); cbn [negb];
    rewrite ?Mat_at_set; zbool.
Qed.

Lemma rows_fill_green_cell (X Y i j : Z) (g : Mat R) :
  rows (fill_green_cell X Y i j g) = rows g.
Proof.
  unfold fill_green_cell. destruct (negb (i =? 0)), (negb (j =? 0)); reflexivity.
Qed.

Lemma cols_fill_green_cell (X Y i j : Z) (g : Mat R) :
  cols (fill_green_cell X Y i j g) = cols g.
Proof.
  unfold fill_green_cell. destruct (negb (i =? 0)), (negb (j =? 0)); reflexivity.
Qed.

(** The inner loop, for the offset [i] of the rows. *)
Lemma fill_green_row (X Y i : Z) (g : Mat R) :
  1 <= X < 2 ^ 31 -> 1 <= Y < 2 ^ 31 -> 0 <= i <= Y / 2 ->
  let g' := for_loop 0 (X / 2 + 1) (fun j g => fill_green_cell X Y i j g) g in
  rows g' = rows g /\ cols g' = cols g
  /\ forall a b, 0 <= a < Y -> 0 <= b < X ->
       Mat_at g' a b
       = if offset Y a =? i then green_val i (offset X b) else Mat_at g a b.
Proof.
  intros HX HY Hi g'.
  assert (HX2 : 0 <= X / 2) by (apply Z.div_pos; lia).
  pose (P := fun (j : Z) (m : Mat R) =>
               rows m = rows g /\ cols m = cols g
               /\ forall a b, 0 <= a < Y -> 0 <= b < X ->
                    Mat_at m a b
                    = if (offset Y a =? i) && (offset X b <? j)
                      then green_val i (offset X b) else Mat_at g a b).
  assert (HP : P (X / 2 + 1) g').
  { apply for_loop_invariant; [lia | |].
    - repeat split. intros a b Ha Hb.
      pose proof (offset_range X b ltac:(lia) Hb).
      destruct (offset Y a =? i); cbn [andb]; [| reflexivity].
      destruct (Z.ltb_spec (offset X b) 0); [lia | reflexivity].
    - intros j t Hj (Hr & Hc & Hcell). split; [| split].
      + now rewrite rows_fill_green_cell.
      + now rewrite cols_fill_green_cell.
      + intros a b Ha Hb.
        rewrite fill_green_cell_at by (assumption || lia).
        rewrite (Hcell a b Ha Hb).
        destruct (Z.eqb_spec (offset Y a) i); cbn [andb]; [| reflexivity].
        destruct (Z.eqb_spec (offset X b) j) as [-> | Hne].
        * destruct (Z.ltb_spec j (j + 1)); [reflexivity | lia].
        * destruct (Z.ltb_spec (offset X b) j), (Z.ltb_spec (offset X b) (j + 1));
            (reflexivity || lia). }
  destruct HP as (Hr & Hc & Hcell). split; [exact Hr | split; [exact Hc |]].
  intros a b Ha Hb. rewrite (Hcell a b Ha Hb).
  pose proof (offset_range X b ltac:(lia) Hb).
  destruct (offset Y a =? i); cbn [andb]; [| reflexivity].
  destruct (Z.ltb_spec (offset X b) (X / 2 + 1)); [reflexivity | lia].
Qed.

(** What [fill_green_fct] leaves in every cell: the value computed at the
    offsets of the cell, whatever the grid held before. *)
Lemma fill_green_fct_at (g : Mat R) :
  1 <= cols g < 2 ^ 31 -> 1 <= rows g < 2 ^ 31 ->
  rows (fill_green_fct g) = rows g /\ cols (fill_green_fct g) = cols g
  /\ forall a b, 0 <= a < rows g -> 0 <= b < cols g ->
       Mat_at (fill_green_fct g) a b
       = green_val (offset (rows g) a) (offset (cols g) b).
Proof.
  intros HX HY. unfold fill_green_fct.
  set (X := cols g) in *. set (Y := rows g) in *.
  assert (HY2 : 0 <= Y / 2) by (apply Z.div_pos; lia).
  pose (P := fun (i : Z) (m : Mat R) =>
               rows m = Y /\ cols m = X
               /\ forall a b, 0 <= a < Y -> 0 <= b < X ->
                    Mat_at m a b
                    = if offset Y a <? i
                      then green_val (offset Y a) (offset X b) else Mat_at g a b).
  match goal with |- rows ?t = _ /\ _ => assert (HP : P (Y / 2 + 1) t) end.
  { apply for_loop_invariant; [lia | |].
    - repeat split. intros a b Ha Hb.
      pose proof (offset_range Y a ltac:(lia) Ha).
      destruct (Z.ltb_spec (offset Y a) 0); [lia | reflexivity].
    - intros i t Hi (Hr & Hc & Hcell).
      destruct (fill_green_row X Y i t HX HY ltac:(lia)) as (Hr' & Hc' & Hcell').
      split; [congruence | split; [congruence |]].
      intros a b Ha Hb. rewrite (Hcell' a b Ha Hb), (Hcell a b Ha Hb).
      destruct (Z.eqb_spec (offset Y a) i) as [<- | Hne].
      + destruct (Z.ltb_spec (offset Y a) (offset Y a + 1)); [reflexivity | lia].
      + destruct (Z.ltb_spec (offset Y a) i), (Z.ltb_spec (offset Y a) (i + 1));
          (reflexivity || lia). }
  destruct HP as (Hr & Hc & Hcell). split; [exact Hr | split; [exact Hc |]].
  intros a b Ha Hb. rewrite (Hcell a b Ha Hb).
  pose proof (offset_range Y a ltac:(lia) Ha).
  destruct (Z.ltb_spec (offset Y a) (Y / 2 + 1)); [reflexivity | lia].
Qed.

(** The kernel is symmetric under the rotation by 180 degrees, for every
    size a [cv::Mat] can have. *)
Lemma fill_green_fct_symmetric (g : Mat R) (a b : Z) :
  1 <= cols g < 2 ^ 31 -> 1 <= rows g < 2 ^ 31 ->
  0 <= a < rows g -> 0 <= b < cols g ->
  Mat_at (fill_green_fct g) a b
  = Mat_at (fill_green_fct g) (opposite (rows g) a) (opposite (cols g) b).
Proof.
  intros HX HY Ha Hb.
  destruct (fill_green_fct_at g HX HY) as (_ & _ & Hcell).
  rewrite (Hcell a b Ha Hb).
  rewrite Hcell by (apply opposite_range; lia).
  rewrite !offset_opposite by lia. reflexivity.
Qed.

(** As long as the square of the row offset fits an [int], the value
    computed is the one of the specification. *)
Lemma green_val_spec (i j : Z) :
  0 <= i <= max_sq_int -> 0 <= j < 2 ^ 30 -> green_val i j = green_spec i j.
Proof.
  unfold max_sq_int. intros Hi Hj. unfold green_val, green_spec.
  destruct ((i =? 0) && (j =? 0)); [reflexivity |].
  assert (Hii : 0 <= i * i < 2 ^ 31) by nia.
  assert (Hjj : 0 <= j * j < 2 ^ 60) by nia.
  rewrite (wrap_size_t_small (i * i)) by lia.
  rewrite wrap_int_small by lia.
  rewrite (wrap_size_t_small (j * j)) by lia.
  rewrite wrap_size_t_small by lia.
  unfold Rdiv. ring.
Qed.

(** A kernel of 92682 rows and one column. *)
Definition tall_kernel : Mat R := fill_green_fct (Mat_zeros 92682 1).

(** For kernels whose half height is at most [max_sq_int], every cell
    holds the value of the specification at its offsets. *)
Lemma fill_green_fct_spec (g : Mat R) (a b : Z) :
  1 <= cols g < 2 ^ 31 -> 1 <= rows g -> rows g / 2 <= max_sq_int ->
  0 <= a < rows g -> 0 <= b < cols g ->
  Mat_at (fill_green_fct g) a b
  = green_spec (offset (rows g) a) (offset (cols g) b).
Proof.
  intros HX HY Hsq Ha Hb.
  assert (HY' : rows g < 2 ^ 31).
  { unfold max_sq_int in Hsq.
    pose proof (Z.div_mod (rows g) 2 ltac:(lia)).
    pose proof (Z.mod_pos_bound (rows g) 2 ltac:(lia)). lia. }
  destruct (fill_green_fct_at g HX (conj HY HY')) as (_ & _ & Hcell).
  rewrite (Hcell a b Ha Hb).
  pose proof (offset_range (rows g) a HY Ha).
  pose proof (offset_range (cols g) b ltac:(lia) Hb).
  apply green_val_spec; [lia |].
  pose proof (Z.div_mod (cols g) 2 ltac:(lia)).
  pose proof (Z.mod_pos_bound (cols g) 2 ltac:(lia)). lia.
Qed.

(** C8: on a kernel of 92682 rows the cell at row offset 46341 does not
    hold [log(sqrt(i^2 + j^2)) / pi]: the square of the offset does not
    fit the [int] it is stored in, and the logarithm is taken of the
    wrapped value. *)
Theorem green_kernel_tall :
  Mat_at tall_kernel 46341 0 = (1 / PI * ln (sqrt 18446744071562072601))%R
  /\ offset (rows (Mat_zeros 92682 1)) 46341 = 46341
  /\ offset (cols (Mat_zeros 92682 1)) 0 = 0
  /\ green_spec 46341 0 = (ln (sqrt 2147488281) / PI)%R
  /\ Mat_at tall_kernel 46341 0 <> green_spec 46341 0.
Proof.
  assert (Hcell : Mat_at tall_kernel 46341 0
                  = (1 / PI * ln (sqrt 18446744071562072601))%R).
  { unfold tall_kernel.
    destruct (fill_green_fct_at (Mat_zeros 92682 1)) as (_ & _ & Hcell);
      [cbn; lia | cbn; lia |].
    rewrite Hcell by (cbn; lia). reflexivity. }
  assert (Hspec : green_spec 46341 0 = (ln (sqrt 2147488281) / PI)%R)
    by reflexivity.
  split; [exact Hcell |]. split; [reflexivity |]. split; [reflexivity |].
  split; [exact Hspec |].
  rewrite Hcell, Hspec. intros Heq.
  assert (Hpi : (PI <> 0)%R) by apply PI_neq0.
  assert (Hln : ln (sqrt 18446744071562072601) = ln (sqrt 2147488281)).
  { apply (Rmult_eq_reg_l (1 / PI)); [| unfold Rdiv; rewrite Rmult_1_l;
                                        now apply Rinv_neq_0_compat].
    rewrite Heq. unfold Rdiv. ring. }
  apply ln_inv in Hln; [| apply sqrt_lt_R0; lra | apply sqrt_lt_R0; lra].
  apply sqrt_inj in Hln; [| lra | lra].
  lra.
Qed.

(** ** Sampling the source *)


(** A source as the constructor and [resize_area] leave it: the end points
    lie one size after the origin, the sizes are [int]s and the channels
    hold bytes. *)
Definition source_ok (s : Source.sourceT) : Prop :=
  Source.end_points s
  = (fst (Source.origin s) + Source.w s, snd (Source.origin s) + Source.h s)
  /\ Source.w s < 2 ^ 31 /\ Source.h s < 2 ^ 31
  /\ forall c, uchar_Mat (Source.channels s c).




Lemma for_loop_0_3 {S : Type} (body : Z -> S -> S) (s : S) :
  for_loop 0 3 body s = body 2 (body 1 (body 0 s)).
Proof. reflexivity. Qed.









(** A source of 4 x 2 pixels of one colour, centred at (10, 20). *)
Definition source_plain : Source.sourceT :=
  Source.sourceT_new (mkMat 2 4 (fun _ _ => (10, 20, 30))) 10 20.

Lemma source_plain_ok : source_ok source_plain.
Proof.
  split; [reflexivity |]. split; [cbn; lia |]. split; [cbn; lia |].
  intros c r col. unfold source_plain, Source.sourceT_new, Source.move, Source.split.
  cbn [Source.channels Mat_map Mat_at Vec3b_get]. zbool.
Qed.




(** ** The renderer *)

(** The byte that [compose_channel] stores for channel [k]. *)
Definition composed (lensed_px : Vec3b) (overlay_sum k : Z) : Z :=
  let final_val := Vec3b_get lensed_px k + overlay_sum in
  if final_val >? 255 then 255 else uchar_of_int final_val.

Lemma compose_channel_set (L F : Mat Vec3b) (i j ov c : Z) :
  Renderer.compose_channel L i j ov c F
  = Mat_set F i j (Vec3b_set (Mat_at F i j) c (composed (Mat_at L i j) ov c)).
Proof.
  unfold Renderer.compose_channel, composed.
  destruct (Vec3b_get (Mat_at L i j) c + ov >? 255); reflexivity.
Qed.

Lemma compose_loop (L F : Mat Vec3b) (i j ov r c : Z) :
  Mat_at (for_loop 0 3 (Renderer.compose_channel L i j ov) F) r c
  = if (r =? i) && (c =? j)
    then (composed (Mat_at L i j) ov 0, composed (Mat_at L i j) ov 1,
          composed (Mat_at L i j) ov 2)
    else Mat_at F r c.
Proof.
  rewrite for_loop_0_3, !compose_channel_set, !Mat_at_set.
  destruct ((r =? i) && (c =? j)) eqn:E; [| reflexivity].
  rewrite !Z.eqb_refl. cbn [andb].
  destruct (Mat_at F i j) as [[f0 f1] f2]. reflexivity.
Qed.

Lemma composed_clamp (px : Vec3b) (ov k : Z) :
  0 <= Vec3b_get px k + ov -> composed px ov k = Z.min 255 (Vec3b_get px k + ov).
Proof.
  intros H. unfold composed, uchar_of_int.
  destruct (Z.gtb_spec (Vec3b_get px k + ov) 255); [lia |].
  rewrite Z.mod_small by lia. lia.
Qed.

Lemma uchar_of_double_range (v : R) : 0 <= uchar_of_double v <= 255.
Proof.
  unfold uchar_of_double.
  pose proof (Z.mod_pos_bound (int_of_double v) 256 ltac:(lia)). lia.
Qed.

Lemma uchar_Vec3b_sets (v : Vec3b) (a b c : Z) :
  0 <= a <= 255 -> 0 <= b <= 255 -> 0 <= c <= 255 ->
  uchar_Vec3b (Vec3b_set (Vec3b_set (Vec3b_set v 0 a) 1 b) 2 c).
Proof.
  intros Ha Hb Hc. destruct v as [[v0 v1] v2]. intros k.
  change (Vec3b_set (Vec3b_set (Vec3b_set (v0, v1, v2) 0 a) 1 b) 2 c)
    with (a, b, c).
  unfold Vec3b_get. zbool.
Qed.

(** Whatever is sampled from the source is a pixel of bytes. *)
Lemma interpolated_pixel_bytes (s : Source.sourceT) (beta1 beta2 : R) :
  uchar_Vec3b (Source.get_linear_interpolated_pixel s beta1 beta2).
Proof.
  unfold Source.get_linear_interpolated_pixel.
  destruct (negb (Source.contains s beta1 beta2)).
  - intros c. unfold Vec3b_get. zbool.
  - rewrite for_loop_0_3. unfold Source.interpolate_channel.
    apply uchar_Vec3b_sets; apply uchar_of_double_range.
Qed.

(** The sum of the overlays at a pixel of the lens footprint, when the
    critical-curve layer is shown. *)
Definition overlay_at (screen : Renderer.screenT) (rel_i rel_j : Z) : Z :=
  Mat_at (Lens.cc_map (Renderer.lens screen)) rel_i rel_j
  + (if Renderer.show_lens screen
     then Mat_at (Lens.kappa8u (Renderer.lens screen)) rel_i rel_j else 0).

(** What the loop body leaves at pixel [(i, j)] of the final buffer, given
    the pixel of the lensed buffer: white or red on a caustic, the clamped
    sum elsewhere. *)
Definition pixel_composited (screen : Renderer.screenT) (recompute_lensed : bool)
           (i j : Z) (lensed_px final_px : Vec3b) : Prop :=
  let l := Renderer.lens screen in
  let rel_i := i - snd (Lens.origin l) in
  let rel_j := j - fst (Lens.origin l) in
  (Mat_at (Lens.caustic_map l) rel_i rel_j > 0 ->
   final_px = if (Mat_at (Lens.cc_map l) rel_i rel_j =? 255) && negb recompute_lensed
              then (255, 255, 255) else (0, 0, 255))
  /\ (Mat_at (Lens.caustic_map l) rel_i rel_j <= 0 ->
      forall c, 0 <= c < 3 ->
        Vec3b_get final_px c
        = Z.min 255 (Vec3b_get lensed_px c + overlay_at screen rel_i rel_j)).

(** The end of the loop body: the lensed pixel is replaced by a sampled
    one on a full redraw, and the final pixel composed from it unless the
    pixel lies on a caustic. *)
Lemma raytrace_and_compose_spec (screen : Renderer.screenT) (recompute_lensed : bool)
      (i j rel_j safe_i : Z) (fi : R) (ov : Z) (caus : bool) (L F : Mat Vec3b) :
  exists px : Vec3b,
    uchar_Vec3b px
    /\ Renderer.raytrace_and_compose screen recompute_lensed i j rel_j safe_i fi
                                     ov caus (L, F)
       = (let L' := if recompute_lensed then Mat_set L i j px else L in
          (L', if negb caus
               then for_loop 0 3 (Renderer.compose_channel L' i j ov) F else F)).
Proof.
  unfold Renderer.raytrace_and_compose. destruct recompute_lensed.
  - destruct (relocate_and_compute_exp_falloff _ _ _ _) as [fj safe_j].
    destruct (Lens.raytrace_pixel _ _ _ _ _ _) as [beta1 beta2].
    eexists. split; [apply interpolated_pixel_bytes | reflexivity].
  - exists (0, 0, 0). split; [| reflexivity]. intros c. unfold Vec3b_get. zbool.
Qed.

(** The loop body touches no pixel but its own. *)
Lemma render_pixel_frame (screen : Renderer.screenT) (recompute_lensed : bool)
      (i rel_i safe_i : Z) (fi : R) (j : Z) (b : Renderer.buffers) (r c : Z) :
  r <> i \/ c <> j ->
  let res := Renderer.render_pixel screen recompute_lensed i rel_i safe_i fi j b in
  Mat_at (fst res) r c = Mat_at (fst b) r c
  /\ Mat_at (snd res) r c = Mat_at (snd b) r c.
Proof.
  intros Hne res. subst res. destruct b as [L F].
  assert (Htail : forall ov caus F',
             Mat_at F' r c = Mat_at F r c ->
             let res := Renderer.raytrace_and_compose screen recompute_lensed i j
                          (j - fst (Lens.origin (Renderer.lens screen)))
                          safe_i fi ov caus (L, F') in
             Mat_at (fst res) r c = Mat_at L r c
             /\ Mat_at (snd res) r c = Mat_at F r c).
  { intros ov caus F' HF'.
    destruct (raytrace_and_compose_spec screen recompute_lensed i j
                (j - fst (Lens.origin (Renderer.lens screen))) safe_i fi ov caus L F')
      as (px & _ & ->).
    cbn [fst snd]. split.
    - destruct recompute_lensed; [now rewrite Mat_at_set_other | reflexivity].
    - destruct (negb caus); [| exact HF'].
      rewrite compose_loop.
      destruct (Z.eqb_spec r i), (Z.eqb_spec c j); cbn [andb]; try exact HF'.
      destruct Hne; contradiction. }
  unfold Renderer.render_pixel. cbn [fst snd].
  destruct (Renderer.show_overlays screen && _); [| now apply Htail].
  destruct (Renderer.show_cc screen && _ && _).
  { cbn [fst snd]. split; [reflexivity | now rewrite Mat_at_set_other]. }
  match goal with
  | |- context [if (if ?t then _ else _) then _ else _] => destruct t
  end.
  - destruct (Renderer.show_cc screen); cbn [andb fst snd].
    + destruct (negb recompute_lensed).
      * cbn [fst snd]. split; [reflexivity | now rewrite Mat_at_set_other].
      * apply Htail. now rewrite Mat_at_set_other.
    + now apply Htail.
  - cbn [andb]. now apply Htail.
Qed.

(** The loop body at a pixel of the lens footprint, with the overlays and
    the critical-curve layer shown. *)
Lemma render_pixel_footprint (screen : Renderer.screenT) (recompute_lensed : bool)
      (i safe_i : Z) (fi : R) (j : Z) (b : Renderer.buffers) :
  Renderer.show_overlays screen = true ->
  Renderer.show_cc screen = true ->
  Lens.contains (Renderer.lens screen) j i = true ->
  uchar_Mat (Lens.cc_map (Renderer.lens screen)) ->
  uchar_Mat (Lens.kappa8u (Renderer.lens screen)) ->
  uchar_Vec3b (Mat_at (fst b) i j) ->
  let res := Renderer.render_pixel screen recompute_lensed i
               (i - snd (Lens.origin (Renderer.lens screen))) safe_i fi j b in
  pixel_composited screen recompute_lensed i j
                   (Mat_at (fst res) i j) (Mat_at (snd res) i j)
  /\ uchar_Vec3b (Mat_at (fst res) i j)
  /\ (recompute_lensed = false -> fst res = fst b).
Proof.
  intros Hov Hcc Hin Hccb Hkb Hpx res. subst res. destruct b as [L F].
  cbn [fst snd] in Hpx.
  set (l := Renderer.lens screen) in *.
  set (rel_i := i - snd (Lens.origin l)).
  unfold pixel_composited, overlay_at. fold l rel_i.
  set (rel_j := j - fst (Lens.origin l)).
  pose proof (Hccb rel_i rel_j) as Hccv. pose proof (Hkb rel_i rel_j) as Hkv.
  assert (Hov_nonneg :
            0 <= Mat_at (Lens.cc_map l) rel_i rel_j
                 + (if Renderer.show_lens screen
                    then Mat_at (Lens.kappa8u l) rel_i rel_j else 0))
    by (destruct (Renderer.show_lens screen); lia).
  unfold Renderer.render_pixel. fold l rel_j. rewrite Hov, Hcc, Hin.
  cbn [andb fst snd]. set (cc := Mat_at (Lens.cc_map l) rel_i rel_j) in *.
  set (caustic := Mat_at (Lens.caustic_map l) rel_i rel_j) in *.
  set (ov := cc + (if Renderer.show_lens screen
                   then Mat_at (Lens.kappa8u l) rel_i rel_j else 0)) in *.
  assert (Hsum : (if Renderer.show_lens screen
                  then (if cc >? 0 then 0 + cc else 0)
                       + Mat_at (Lens.kappa8u l) rel_i rel_j
                  else (if cc >? 0 then 0 + cc else 0)) = ov).
  { subst ov. destruct (Z.gtb_spec cc 0), (Renderer.show_lens screen); lia. }
  assert (Hov_cc : cc <= ov)
    by (subst ov; destruct (Renderer.show_lens screen); lia).
  clearbody ov.
  destruct ((cc >? 0) && ((cc =? 255) && negb recompute_lensed)) eqn:Efast.
  - (* the critical curve, drawn on top without a redraw *)
    apply andb_prop in Efast as [_ Efast]. apply andb_prop in Efast as [E255 Erec].
    apply Z.eqb_eq in E255. destruct recompute_lensed; [discriminate |].
    cbn [fst snd]. rewrite Mat_at_set_same. split; [| split; [exact Hpx | reflexivity]].
    split.
    + intros _. rewrite E255. reflexivity.
    + intros _ c Hc. pose proof (Hpx c).
      assert (Hcases : c = 0 \/ c = 1 \/ c = 2) by lia.
      assert (Hmin : Z.min 255 (Vec3b_get (Mat_at L i j) c + ov) = 255) by lia.
      rewrite Hmin. destruct Hcases as [-> | [-> | ->]]; reflexivity.
  - destruct (Z.gtb_spec caustic 0) as [Hcaus | Hcaus].
    + (* on a caustic *)
      cbn [fst snd]. destruct recompute_lensed; cbn [negb andb].
      * rewrite Hsum.
        destruct (raytrace_and_compose_spec screen true i j rel_j safe_i fi ov true
                    L (Mat_set F i j (0, 0, 255))) as (px & Hbytes & ->).
        cbn [fst snd negb]. rewrite !Mat_at_set_same.
        split; [| split; [exact Hbytes | discriminate]].
        split; [intros _; now rewrite andb_false_r | intros; lia].
      * cbn [fst snd]. rewrite Mat_at_set_same.
        split; [| split; [exact Hpx | reflexivity]].
        split; [intros _ | intros; lia].
        rewrite andb_true_r. rewrite andb_true_r in Efast.
        destruct (Z.eqb_spec cc 255) as [E | E]; [| reflexivity].
        destruct (Z.gtb_spec cc 0); [discriminate | lia].
    + (* elsewhere *)
      cbn [andb]. rewrite Hsum.
      destruct (raytrace_and_compose_spec screen recompute_lensed i j rel_j safe_i
                  fi ov false L F) as (px & Hbytes & ->).
      cbn [fst snd negb]. rewrite compose_loop, !Z.eqb_refl. cbn [andb].
      set (L' := if recompute_lensed then Mat_set L i j px else L).
      assert (HL' : uchar_Vec3b (Mat_at L' i j)).
      { subst L'. destruct recompute_lensed; [| exact Hpx].
        now rewrite Mat_at_set_same. }
      split; [| split; [exact HL' |]].
      * split; [intros; lia |]. intros _ c Hc. pose proof (HL' c).
        rewrite <- composed_clamp by lia.
        assert (Hcases : c = 0 \/ c = 1 \/ c = 2) by lia.
        destruct Hcases as [-> | [-> | ->]]; reflexivity.
      * intros ->. reflexivity.
Qed.

(** The hypotheses under which the renderer is examined: overlays and
    critical curves are shown and the overlay maps hold bytes. *)
Definition overlays_shown (screen : Renderer.screenT) : Prop :=
  Renderer.show_overlays screen = true
  /\ Renderer.show_cc screen = true
  /\ uchar_Mat (Lens.cc_map (Renderer.lens screen))
  /\ uchar_Mat (Lens.kappa8u (Renderer.lens screen)).

(** One row of the loop: every pixel of the footprint in the row is
    composited, and nothing outside the row changes. *)
Lemma render_row_footprint (screen : Renderer.screenT) (recompute_lensed : bool)
      (i : Z) (b : Renderer.buffers) :
  overlays_shown screen ->
  (forall c, uchar_Vec3b (Mat_at (fst b) i c)) ->
  let res := Renderer.render_row screen recompute_lensed i b in
  (forall j, 0 <= j < Renderer.max_w screen ->
             Lens.contains (Renderer.lens screen) j i = true ->
             pixel_composited screen recompute_lensed i j
                              (Mat_at (fst res) i j) (Mat_at (snd res) i j))
  /\ (forall r c, ~ (r = i /\ 0 <= c < Renderer.max_w screen) ->
                  Mat_at (fst res) r c = Mat_at (fst b) r c
                  /\ Mat_at (snd res) r c = Mat_at (snd b) r c)
  /\ (recompute_lensed = false -> fst res = fst b).
Proof.
  intros (Hov & Hcc & Hccb & Hkb) Hbytes res. subst res.
  unfold Renderer.render_row.
  set (rel_i := i - snd (Lens.origin (Renderer.lens screen))).
  match goal with
  | |- context [let '(fi, safe_i) := ?e in _] => destruct e as [fi safe_i]
  end.
  destruct (Z.le_gt_cases 0 (Renderer.max_w screen)) as [Hw | Hw].
  2: { rewrite for_loop_empty by lia. split; [intros; lia |]. split; [easy | easy]. }
  pose (P := fun (k : Z) (t : Renderer.buffers) =>
               (forall j, 0 <= j < k ->
                          Lens.contains (Renderer.lens screen) j i = true ->
                          pixel_composited screen recompute_lensed i j
                                           (Mat_at (fst t) i j) (Mat_at (snd t) i j))
               /\ (forall r c, ~ (r = i /\ 0 <= c < k) ->
                               Mat_at (fst t) r c = Mat_at (fst b) r c
                               /\ Mat_at (snd t) r c = Mat_at (snd b) r c)
               /\ (recompute_lensed = false -> fst t = fst b)).
  apply (for_loop_invariant P); [exact Hw | |].
  - split; [intros; lia |]. split; [easy | easy].
  - intros j t Hj (Hdone & Hframe & Hsame). split; [| split].
    + intros j' Hj' Hin.
      destruct (Z.eq_dec j' j) as [-> | Hne].
      * apply render_pixel_footprint; try assumption.
        destruct (Hframe i j ltac:(lia)) as [-> _]. apply Hbytes.
      * destruct (render_pixel_frame screen recompute_lensed i rel_i safe_i fi j t
                    i j' ltac:(right; exact Hne)) as [-> ->].
        apply Hdone; [lia | exact Hin].
    + intros r c Hout.
      destruct (render_pixel_frame screen recompute_lensed i rel_i safe_i fi j t
                  r c ltac:(lia)) as [-> ->].
      apply Hframe. lia.
    + intros Hrec. rewrite <- (Hsame Hrec).
      destruct (Lens.contains (Renderer.lens screen) j i) eqn:Hin.
      * apply render_pixel_footprint; try assumption.
        destruct (Hframe i j ltac:(lia)) as [-> _]. apply Hbytes.
      * unfold Renderer.render_pixel. rewrite Hin, andb_false_r.
        destruct t as [L F].
        destruct (raytrace_and_compose_spec screen recompute_lensed i j
                    (j - fst (Lens.origin (Renderer.lens screen))) safe_i fi
                    0 false L F) as (px & _ & ->).
        rewrite Hrec. reflexivity.
Qed.

(** The whole pass over the rows [range_start .. range_end - 1]. *)
Lemma render_rows_footprint (screen : Renderer.screenT) (recompute_lensed : bool)
      (range_start range_end : Z) (b : Renderer.buffers) :
  overlays_shown screen ->
  (forall r c, uchar_Vec3b (Mat_at (fst b) r c)) ->
  let res := for_loop range_start range_end
               (Renderer.render_row screen recompute_lensed) b in
  (forall i j, range_start <= i < range_end -> 0 <= j < Renderer.max_w screen ->
               Lens.contains (Renderer.lens screen) j i = true ->
               pixel_composited screen recompute_lensed i j
                                (Mat_at (fst res) i j) (Mat_at (snd res) i j))
  /\ (recompute_lensed = false -> fst res = fst b).
Proof.
  intros Hshown Hbytes res. subst res.
  destruct (Z.le_gt_cases range_start range_end) as [Hle | Hgt].
  2: { rewrite for_loop_empty by lia. split; [intros; lia | reflexivity]. }
  pose (P := fun (k : Z) (t : Renderer.buffers) =>
               (forall i j, range_start <= i < k -> 0 <= j < Renderer.max_w screen ->
                            Lens.contains (Renderer.lens screen) j i = true ->
                            pixel_composited screen recompute_lensed i j
                                             (Mat_at (fst t) i j) (Mat_at (snd t) i j))
               /\ (forall r c, ~ range_start <= r < k ->
                               Mat_at (fst t) r c = Mat_at (fst b) r c)
               /\ (recompute_lensed = false -> fst t = fst b)).
  assert (HP : P range_end
                 (for_loop range_start range_end
                    (Renderer.render_row screen recompute_lensed) b)).
  { apply for_loop_invariant; [exact Hle | |].
    - split; [intros; lia |]. split; [reflexivity | reflexivity].
    - intros i t Hi (Hdone & Hframe & Hsame).
      destruct (render_row_footprint screen recompute_lensed i t Hshown)
        as (Hrow & Hrest & Hkeep).
      { intros c. rewrite Hframe by lia. apply Hbytes. }
      split; [| split].
      + intros i' j Hi' Hj Hin.
        destruct (Z.eq_dec i' i) as [-> | Hne].
        * now apply Hrow.
        * destruct (Hrest i' j ltac:(lia)) as [-> ->].
          apply Hdone; [lia | exact Hj | exact Hin].
      + intros r c Hout.
        destruct (Hrest r c ltac:(lia)) as [-> _]. apply Hframe. lia.
      + intros Hrec. rewrite (Hkeep Hrec). now apply Hsame. }
  destruct HP as (Hdone & _ & Hsame). split; assumption.
Qed.

(** C4, as the loop draws it: at a pixel of the lens footprint, with the
    overlays and the critical-curve layer shown, a positive caustic entry
    gives pure red, unless the critical-curve entry is 255 and the lensed
    image is not recomputed, where the pixel is white; any other pixel
    holds, per channel, the lensed value plus the overlays (critical curve
    and, when shown, convergence), at most 255.  Without a recomputation the
    lensed pixel is the one already in the buffer. *)
Theorem render_footprint_pixel (screen : Renderer.screenT) (recompute_lensed : bool)
        (range_start range_end : Z) :
  overlays_shown screen ->
  (forall r c, uchar_Vec3b (Mat_at (Renderer.lensedRGB screen) r c)) ->
  let out := Renderer.Parallel_renderer screen recompute_lensed range_start range_end in
  forall i j,
    range_start <= i < range_end -> 0 <= j < Renderer.max_w screen ->
    Lens.contains (Renderer.lens screen) j i = true ->
    let l := Renderer.lens screen in
    let rel_i := i - snd (Lens.origin l) in
    let rel_j := j - fst (Lens.origin l) in
    let cc := Mat_at (Lens.cc_map l) rel_i rel_j in
    let caustic := Mat_at (Lens.caustic_map l) rel_i rel_j in
    let kappa := if Renderer.show_lens screen
                 then Mat_at (Lens.kappa8u l) rel_i rel_j else 0 in
    let lensed_px := Mat_at (Renderer.lensedRGB out) i j in
    let final_px := Mat_at (Renderer.finalRGB out) i j in
    (caustic > 0 -> cc = 255 /\ recompute_lensed = false ->
     final_px = (255, 255, 255))
    /\ (caustic > 0 -> ~ (cc = 255 /\ recompute_lensed = false) ->
        final_px = (0, 0, 255))
    /\ (caustic <= 0 ->
        forall c, 0 <= c < 3 ->
          Vec3b_get final_px c = Z.min 255 (Vec3b_get lensed_px c + (cc + kappa)))
    /\ (recompute_lensed = false ->
        lensed_px = Mat_at (Renderer.lensedRGB screen) i j).
Proof.
  intros Hshown Hbytes out i j Hi Hj Hin l rel_i rel_j cc caustic kappa
         lensed_px final_px.
  destruct (render_rows_footprint screen recompute_lensed range_start range_end
              (Renderer.lensedRGB screen, Renderer.finalRGB screen) Hshown Hbytes)
    as (Hdone & Hsame).
  specialize (Hdone i j Hi Hj Hin).
  assert (Hout : Renderer.lensedRGB out
                 = fst (for_loop range_start range_end
                          (Renderer.render_row screen recompute_lensed)
                          (Renderer.lensedRGB screen, Renderer.finalRGB screen))
                 /\ Renderer.finalRGB out
                    = snd (for_loop range_start range_end
                             (Renderer.render_row screen recompute_lensed)
                             (Renderer.lensedRGB screen, Renderer.finalRGB screen))).
  { subst out. unfold Renderer.Parallel_renderer.
    destruct (for_loop _ _ _ _) as [L F]. split; reflexivity. }
  destruct Hout as [HoL HoF].
  subst lensed_px final_px. rewrite HoL, HoF.
  destruct Hdone as [Hcaus Hplain]. fold l rel_i rel_j cc caustic in Hcaus, Hplain.
  split; [| split; [| split]].
  - intros Hpos [E255 Erec]. rewrite (Hcaus Hpos), E255, Erec. reflexivity.
  - intros Hpos Hnot. rewrite (Hcaus Hpos).
    destruct (Z.eqb_spec cc 255) as [E | E]; [| reflexivity].
    destruct recompute_lensed; [reflexivity |].
    exfalso. apply Hnot. split; [exact E | reflexivity].
  - intros Hzero c Hc. exact (Hplain Hzero c Hc).
  - intros Hrec. cbn [fst] in Hsame. now rewrite (Hsame Hrec).
Qed.

(** A lens of 3 x 3 cells at the origin whose critical-curve and caustic
    maps are set everywhere, over a grey lensed image; overlay mode 2. *)
Definition lens_3x3 : Lens.lensT :=
  Lens.mk_lensT (0, 0) (3, 3) 3 3
    (Mat_zeros 3 3) (Mat_zeros 3 3) (Mat_zeros 3 3) (Mat_zeros 3 3)
    (Mat_zeros8u 3 3) (Mat_zeros 3 3)
    (mkMat 3 3 (fun _ _ => 255)) (mkMat 3 3 (fun _ _ => 255)) 1%R.

Definition screen_3x3 : Renderer.screenT :=
  Renderer.mk_screenT 3 lens_3x3 source_plain
    (mkMat 3 3 (fun _ _ => (7, 7, 7))) (mkMat 3 3 (fun _ _ => (0, 0, 0))) 2.

Lemma screen_3x3_shown : overlays_shown screen_3x3.
Proof.
  split; [reflexivity |]. split; [reflexivity |].
  split; intros r c; cbn; lia.
Qed.

Lemma screen_3x3_bytes (r c : Z) :
  uchar_Vec3b (Mat_at (Renderer.lensedRGB screen_3x3) r c).
Proof. intros k. cbn [screen_3x3 Renderer.lensedRGB Mat_at]. unfold Vec3b_get. zbool. Qed.

(** The pixel (1, 1) lies in the footprint and on a caustic, and a pass
    that redraws the overlays only leaves it white, not red. *)
Lemma caustic_pixel_drawn_white :
  Renderer.show_overlays screen_3x3 = true
  /\ Renderer.show_cc screen_3x3 = true
  /\ Lens.contains (Renderer.lens screen_3x3) 1 1 = true
  /\ Mat_at (Lens.caustic_map (Renderer.lens screen_3x3)) 1 1 > 0
  /\ Mat_at (Renderer.finalRGB (Renderer.Parallel_renderer screen_3x3 false 0 3)) 1 1
     = (255, 255, 255)
  /\ Mat_at (Renderer.finalRGB (Renderer.Parallel_renderer screen_3x3 false 0 3)) 1 1
     <> (0, 0, 255).
Proof.
  assert (Hpx : Mat_at (Renderer.finalRGB
                          (Renderer.Parallel_renderer screen_3x3 false 0 3)) 1 1
                = (255, 255, 255)) by (vm_compute; reflexivity).
  split; [reflexivity |]. split; [reflexivity |]. split; [reflexivity |].
  split; [reflexivity |]. split; [exact Hpx |].
  rewrite Hpx. discriminate.
Qed.

Lemma render_footprint_pixel_witness :
  overlays_shown screen_3x3
  /\ (Mat_at (Lens.caustic_map lens_3x3) 1 1 > 0 ->
      Mat_at (Lens.cc_map lens_3x3) 1 1 = 255 /\ false = false ->
      Mat_at (Renderer.finalRGB (Renderer.Parallel_renderer screen_3x3 false 0 3)) 1 1
      = (255, 255, 255)).
Proof.
  split.
  - exact screen_3x3_shown.
  - exact (proj1 (render_footprint_pixel screen_3x3 false 0 3
                    screen_3x3_shown screen_3x3_bytes 1 1
                    ltac:(lia) ltac:(cbn; lia) eq_refl)).
Defined.

(** ** The caustic map *)

(** The cell of the source plane that the lens pixel in row [i] and column
    [j] is sent to: the lens equation with scale factor 1, then the
    conversion of each coordinate plus one half to [int]. *)
Definition caustic_cell (lens : Lens.lensT) (i j : Z) : Z * Z :=
  (int_of_double (IZR j - Mat_at (Lens.alpha1 lens) i j * Lens.weight lens + 0.5),
   int_of_double (IZR i - Mat_at (Lens.alpha2 lens) i j * Lens.weight lens + 0.5)).

(** The cells marked around the cell in row [b2] and column [b1]: the cell,
    the one a row above and the one a column to the left, the last two
    kept inside the map. *)
Definition in_footprint (b1 b2 r c : Z) : bool :=
  ((r =? b2) && (c =? b1))
  || ((r =? Z.max (b2 - 1) 0) && (c =? b1))
  || ((r =? b2) && (c =? Z.max (b1 - 1) 0)).

(** The pixel [(i, j)] marks the cell [(r, c)] of a map of [width] columns
    and [height] rows. *)
Definition marks (lens : Lens.lensT) (width height i j r c : Z) : bool :=
  let '(b1, b2) := caustic_cell lens i j in
  (Mat_at (Lens.cc_map lens) i j >? 0)
  && (0 <=? b1) && (b1 <? width) && (0 <=? b2) && (b2 <? height)
  && in_footprint b1 b2 r c.

Lemma raytrace_unscaled (lens : Lens.lensT) (i j : Z) :
  Lens.raytrace_pixel lens j i j i 1
  = ((IZR j - Mat_at (Lens.alpha1 lens) i j * Lens.weight lens)%R,
     (IZR i - Mat_at (Lens.alpha2 lens) i j * Lens.weight lens)%R).
Proof. unfold Lens.raytrace_pixel. f_equal; ring. Qed.

Lemma relocate_int_pred (b n : Z) :
  0 <= b < n -> relocate_int (b - 1) n = Z.max (b - 1) 0.
Proof. intros Hb. unfold relocate_int. zbool. Qed.

(** One step of the inversion: the cells the pixel marks become 255, the
    others keep their value. *)
Lemma invert_cc_pixel_at (lens : Lens.lensT) (width height i j : Z)
      (cm : Mat Z) (r c : Z) :
  Mat_at (Inverter.invert_cc_pixel lens width height i j cm) r c
  = if marks lens width height i j r c then 255 else Mat_at cm r c.
Proof.
  unfold Inverter.invert_cc_pixel, marks, caustic_cell.
  rewrite raytrace_unscaled.
  set (b1 := int_of_double _). set (b2 := int_of_double _).
  destruct (Mat_at (Lens.cc_map lens) i j >? 0); cbn [andb]; [| reflexivity].
  destruct (Z.leb_spec 0 b1); cbn [andb]; [| reflexivity].
  destruct (Z.ltb_spec b1 width); cbn [andb]; [| reflexivity].
  destruct (Z.leb_spec 0 b2); cbn [andb]; [| reflexivity].
  destruct (Z.ltb_spec b2 height); cbn [andb]; [| reflexivity].
  rewrite !relocate_int_pred by lia. rewrite !Mat_at_set. unfold in_footprint.
  destruct ((r =? b2) && (c =? Z.max (b1 - 1) 0)); [now rewrite !orb_true_r |].
  destruct ((r =? Z.max (b2 - 1) 0) && (c =? b1)); [now rewrite orb_true_r |].
  destruct ((r =? b2) && (c =? b1)); reflexivity.
Qed.

Lemma invert_cc_pixel_dims (lens : Lens.lensT) (width height i j : Z) (cm : Mat Z) :
  rows (Inverter.invert_cc_pixel lens width height i j cm) = rows cm
  /\ cols (Inverter.invert_cc_pixel lens width height i j cm) = cols cm.
Proof.
  unfold Inverter.invert_cc_pixel.
  destruct (Lens.raytrace_pixel lens j i j i 1) as [beta1 beta2].
  destruct (_ && _); split; reflexivity.
Qed.

(** The state of the caustic map after the pixels before [(k, 0)] (rows
    from [lo]), or before [(i, k)] within a row: a cell is 255 if one of
    them marks it, and still holds its first value if none does. *)
Definition marked_by (lens : Lens.lensT) (width height : Z)
           (done : Z -> Z -> Prop) (cm0 cm : Mat Z) : Prop :=
  rows cm = rows cm0 /\ cols cm = cols cm0
  /\ forall r c,
      ((exists i j, done i j /\ marks lens width height i j r c = true) ->
       Mat_at cm r c = 255)
      /\ ((forall i j, done i j -> marks lens width height i j r c = false) ->
          Mat_at cm r c = Mat_at cm0 r c).

Lemma marked_by_step (lens : Lens.lensT) (width height : Z)
      (done done' : Z -> Z -> Prop) (cm0 cm : Mat Z) (i j : Z) :
  (forall i' j', done' i' j' <-> done i' j' \/ (i' = i /\ j' = j)) ->
  marked_by lens width height done cm0 cm ->
  marked_by lens width height done' cm0
            (Inverter.invert_cc_pixel lens width height i j cm).
Proof.
  intros Hdone (Hr & Hc & Hcell).
  destruct (invert_cc_pixel_dims lens width height i j cm) as [Hr' Hc'].
  split; [congruence |]. split; [congruence |].
  intros r c. rewrite invert_cc_pixel_at. destruct (Hcell r c) as [Hyes Hno]. split.
  - intros (i' & j' & Hd & Hm).
    destruct (marks lens width height i j r c) eqn:E; [reflexivity |].
    apply Hyes. exists i', j'. split; [| exact Hm].
    apply Hdone in Hd as [Hd | [-> ->]]; [exact Hd | congruence].
  - intros Hnone.
    rewrite (Hnone i j) by (apply Hdone; right; split; reflexivity).
    apply Hno. intros i' j' Hd. apply Hnone, Hdone. left. exact Hd.
Qed.

Lemma marked_by_ext (lens : Lens.lensT) (width height : Z)
      (done done' : Z -> Z -> Prop) (cm0 cm : Mat Z) :
  (forall i j, done' i j <-> done i j) ->
  marked_by lens width height done cm0 cm ->
  marked_by lens width height done' cm0 cm.
Proof.
  intros Hdone (Hr & Hc & Hcell). split; [exact Hr |]. split; [exact Hc |].
  intros r c. destruct (Hcell r c) as [Hyes Hno]. split.
  - intros (i & j & Hd & Hm). apply Hyes. exists i, j. split; [now apply Hdone | exact Hm].
  - intros Hnone. apply Hno. intros i j Hd. apply Hnone. now apply Hdone.
Qed.

(** One row of the inversion pass. *)
Lemma invert_cc_row_marked (lens : Lens.lensT) (width height lo i : Z)
      (cm0 cm : Mat Z) :
  lo <= i ->
  marked_by lens width height (fun i' j' => lo <= i' < i /\ 0 <= j' < width) cm0 cm ->
  marked_by lens width height (fun i' j' => lo <= i' < i + 1 /\ 0 <= j' < width) cm0
            (for_loop 0 width
               (fun j cm => Inverter.invert_cc_pixel lens width height i j cm) cm).
Proof.
  intros Hlo Hinv.
  destruct (Z.le_gt_cases 0 width) as [Hw | Hw].
  2: { rewrite for_loop_empty by lia.
       apply (marked_by_ext lens width height
                (fun i' j' => lo <= i' < i /\ 0 <= j' < width));
         [intros; cbn beta; lia | exact Hinv]. }
  pose (P := fun (k : Z) (cm' : Mat Z) =>
               marked_by lens width height
                 (fun i' j' => (lo <= i' < i /\ 0 <= j' < width)
                               \/ (i' = i /\ 0 <= j' < k)) cm0 cm').
  assert (HP : P width
                 (for_loop 0 width
                    (fun j cm => Inverter.invert_cc_pixel lens width height i j cm) cm)).
  { apply for_loop_invariant; [exact Hw | |].
    - apply (marked_by_ext lens width height
               (fun i' j' => lo <= i' < i /\ 0 <= j' < width));
        [intros; cbn beta; lia | exact Hinv].
    - intros j cm' Hj HP. unfold P in *.
      eapply marked_by_step; [| exact HP].
      intros i' j'. cbn beta. lia. }
  apply (marked_by_ext lens width height
           (fun i' j' => (lo <= i' < i /\ 0 <= j' < width)
                         \/ (i' = i /\ 0 <= j' < width)));
    [intros; cbn beta; lia | exact HP].
Qed.

(** The whole inversion pass. *)
Lemma invert_cc_map_marked (lens : Lens.lensT) (range_start range_end : Z) :
  let width := cols (Lens.caustic_map lens) in
  let height := rows (Lens.caustic_map lens) in
  marked_by lens width height
            (fun i j => range_start <= i < range_end /\ 0 <= j < width)
            (Lens.caustic_map lens)
            (Lens.caustic_map (Inverter.invert_cc_map lens range_start range_end)).
Proof.
  intros width height. unfold Inverter.invert_cc_map.
  cbn [Lens.caustic_map Lens.with_caustic_map].
  fold width height. set (cm0 := Lens.caustic_map lens).
  destruct (Z.le_gt_cases range_start range_end) as [Hle | Hgt].
  2: { rewrite for_loop_empty by lia. split; [reflexivity |]. split; [reflexivity |].
       intros r c. split; [intros (i & j & (Hi & _) & _); lia | reflexivity]. }
  pose (P := fun (k : Z) (cm : Mat Z) =>
               marked_by lens width height
                 (fun i j => range_start <= i < k /\ 0 <= j < width) cm0 cm).
  assert (HP : P range_end
                 (for_loop range_start range_end
                    (fun i cm =>
                       for_loop 0 width
                         (fun j cm => Inverter.invert_cc_pixel lens width height i j cm)
                         cm) cm0)).
  { apply for_loop_invariant; [exact Hle | |].
    - split; [reflexivity |]. split; [reflexivity |].
      intros r c. split; [intros (i & j & (Hi & _) & _); lia | reflexivity].
    - intros i cm Hi HP. apply invert_cc_row_marked; [lia | exact HP]. }
  exact HP.
Qed.




(** Below -1/2 it is not: -0.7 is sent to 0, and -1 is nearer. *)
Lemma round_half_below : int_of_double (- 0.7 + 0.5) = 0.
Proof. apply int_of_double_eq_neg; lra. Qed.


(** A lens of 2 x 2 cells without deflection whose critical curve is the
    single pixel (0, 0); its caustic map is still empty. *)
Definition lens_corner : Lens.lensT :=
  Lens.mk_lensT (0, 0) (2, 2) 2 2
    (Mat_zeros 2 2) (Mat_zeros 2 2) (Mat_zeros 2 2) (Mat_zeros 2 2)
    (Mat_zeros8u 2 2) (Mat_zeros 2 2)
    (mkMat 2 2 (fun r c => if (r =? 0) && (c =? 0) then 255 else 0))
    (Mat_zeros8u 2 2) 1%R.





(** ** The convergence of a byte-valued input *)

(** A byte image of one row whose values are 0 and 100, and one whose
    only value is 255. *)
Definition image_dim : Mat Z := mkMat 1 2 (fun _ c => if c =? 0 then 0 else 100).
Definition image_white : Mat Z := mkMat 1 1 (fun _ _ => 255).

Lemma store_kappa_keeps_bytes (m : Mat Z) :
  snd (LensBuild.store_kappa (LensBuild.Kappa8U m)) = m.
Proof. reflexivity. Qed.

Lemma cells_image_dim : Mat_cells (Mat_map IZR image_dim) = [0%R; 100%R].
Proof. reflexivity. Qed.

Lemma cells_image_white : Mat_cells (Mat_map IZR image_white) = [255%R].
Proof. reflexivity. Qed.

Ltac no_test t :=
  lazymatch t with
  | context [Rle_dec _ _] => fail
  | context [Rlt_dec _ _] => fail
  | _ => idtac
  end.

Ltac decide_reals :=
  unfold Rmin, Rmax;
  repeat match goal with
         | |- context [Rle_dec ?a ?b] =>
             no_test a; no_test b; destruct (Rle_dec a b); try lra
         | |- context [Rlt_dec ?a ?b] =>
             no_test a; no_test b; destruct (Rlt_dec a b); try lra
         end.

(** C6: the byte copy is kept, but the normalisation is not a fixed one
    sending 255 to 2: it stretches the values of each input to [[0, 2]].
    In an image with the values 0 and 100 the value 100 becomes 2, and an
    image of the single value 255 becomes 0. *)
Theorem store_kappa_minmax :
  snd (LensBuild.store_kappa (LensBuild.Kappa8U image_dim)) = image_dim
  /\ Mat_at image_dim 0 1 = 100
  /\ Mat_at (fst (LensBuild.store_kappa (LensBuild.Kappa8U image_dim))) 0 1 = 2%R
  /\ Mat_at image_white 0 0 = 255
  /\ Mat_at (fst (LensBuild.store_kappa (LensBuild.Kappa8U image_white))) 0 0 = 0%R.
Proof.
  split; [reflexivity |]. split; [reflexivity |]. split; [| split; [reflexivity |]].
  - unfold LensBuild.store_kappa, LensBuild.normalize_minmax, LensBuild.DBL_EPSILON.
    rewrite cells_image_dim. cbn [fst Mat_map Mat_at hd fold_right].
    change (Mat_at image_dim 0 1) with 100.
    decide_reals.
  - unfold LensBuild.store_kappa, LensBuild.normalize_minmax, LensBuild.DBL_EPSILON.
    rewrite cells_image_white. cbn [fst Mat_map Mat_at hd fold_right].
    change (Mat_at image_white 0 0) with 255.
    decide_reals.
Qed.

(** ** A grid for the finite differences *)

(** One row of five cells holding 0, 1, 4, 9, 16. *)
Definition row_of_squares : Mat R := mkMat 1 5 (fun _ c => IZR (c * c)).

Lemma deriv_replicates_border_witness :
  5 <= cols row_of_squares
  /\ Mat_at (deriv_x row_of_squares) 0 0
     = central_x row_of_squares 0 (replicated (cols row_of_squares) 0).
Proof.
  split.
  - cbn. lia.
  - exact (proj1 (proj2 (proj2 (proj2
             (proj1 (deriv_replicates_border row_of_squares)
                    ltac:(cbn; lia))))
             0 0 ltac:(cbn; lia) ltac:(cbn; lia))).
Defined.

(** * Further properties of the code *)

(** ** Loops over adjacent ranges *)

Lemma for_iter_app {S : Type} (body : Z -> S -> S) (n m : nat) :
  forall (i : Z) (s : S),
    for_iter (n + m) i body s
    = for_iter m (i + Z.of_nat n) body (for_iter n i body s).
Proof.
  induction n as [| n IH]; intros i s.
  - cbn [Nat.add for_iter]. now rewrite Z.add_0_r.
  - cbn [Nat.add for_iter]. rewrite IH. f_equal. lia.
Qed.

(** A loop over [[a, c)] is the loop over [[a, b)] followed by the one over
    [[b, c)]. *)
Lemma for_loop_split {S : Type} (a b c : Z) (body : Z -> S -> S) (s : S) :
  a <= b <= c ->
  for_loop a c body s = for_loop b c body (for_loop a b body s).
Proof.
  intros H. unfold for_loop.
  replace (Z.to_nat (c - a)) with (Z.to_nat (b - a) + Z.to_nat (c - b))%nat by lia.
  rewrite for_iter_app. f_equal. lia.
Qed.

(** ** Fall-off and relocation *)

Lemma relocate_and_compute_split (rel_px len : Z) (half : R) :
  relocate_and_compute_exp_falloff rel_px len half (IZR len - 1)
  = (exp_fall_off rel_px len half (IZR len - 1), relocate_int rel_px len).
Proof.
  unfold relocate_and_compute_exp_falloff, exp_fall_off, relocate_int.
  destruct (rel_px <? 0); [f_equal; ring |].
  destruct (rel_px >=? len); [| reflexivity].
  f_equal; [ring |].
  replace (IZR len - 1)%R with (IZR (len - 1)) by (rewrite minus_IZR; reflexivity).
  apply int_of_double_IZR.
Qed.

(** X1: with [lm1 = len - 1], [relocate_and_compute_exp_falloff] returns
    exactly the weight of [exp_fall_off] and leaves the coordinate of the
    [int] overload of [relocate] in [safe_rel_x], for every coordinate,
    length and half length. *)
Theorem fall_off_is_weight_and_relocation (rel_px len : Z) (half : R) :
  relocate_and_compute_exp_falloff rel_px len half (IZR len - 1)
  = (exp_fall_off rel_px len half (IZR len - 1), relocate_int rel_px len).
Proof. apply relocate_and_compute_split. Qed.

(** ** The kernel, for every size *)

(** A kernel of 4 rows and 6 columns. *)
Definition kernel_4x6 : Mat R := Mat_zeros 4 6.

(** X2: for every size a [cv::Mat] can have, the kernel that
    [fill_green_fct] leaves is symmetric under the rotation by 180 degrees,
    [(a, b) -> ((rows - a) mod rows, (cols - b) mod cols)]. *)
Theorem green_kernel_symmetric (g : Mat R) (a b : Z) :
  1 <= cols g < 2 ^ 31 -> 1 <= rows g < 2 ^ 31 ->
  0 <= a < rows g -> 0 <= b < cols g ->
  Mat_at (fill_green_fct g) a b
  = Mat_at (fill_green_fct g) ((rows g - a) mod rows g) ((cols g - b) mod cols g).
Proof. intros HX HY Ha Hb. now apply fill_green_fct_symmetric. Qed.

Lemma green_kernel_symmetric_witness :
  Mat_at (fill_green_fct kernel_4x6) 1 2
  = Mat_at (fill_green_fct kernel_4x6) ((4 - 1) mod 4) ((6 - 2) mod 6).
Proof.
  apply (green_kernel_symmetric kernel_4x6 1 2); cbn; lia.
Defined.

(** X3: as long as half the number of rows is at most 46340, every cell of
    the kernel holds the fixed constant at offset (0, 0) and
    [log(sqrt(i^2 + j^2)) / pi] at any other offset [(i, j)], the offset of
    an index being its distance to 0 around the grid. *)
Theorem green_kernel_values (g : Mat R) (a b : Z) :
  1 <= cols g < 2 ^ 31 -> 1 <= rows g -> rows g / 2 <= 46340 ->
  0 <= a < rows g -> 0 <= b < cols g ->
  let i := if a <=? rows g / 2 then a else rows g - a in
  let j := if b <=? cols g / 2 then b else cols g - b in
  Mat_at (fill_green_fct g) a b
  = if (i =? 0) && (j =? 0) then (-1.4658711977588554)%R
    else (ln (sqrt (IZR (i * i + j * j))) / PI)%R.
Proof. intros HX HY Hsq Ha Hb. now apply fill_green_fct_spec. Qed.

Lemma green_kernel_values_witness :
  Mat_at (fill_green_fct kernel_4x6) 3 2
  = if ((if 3 <=? 4 / 2 then 3 else 4 - 3) =? 0)
       && ((if 2 <=? 6 / 2 then 2 else 6 - 2) =? 0)
    then (-1.4658711977588554)%R
    else (ln (sqrt (IZR ((if 3 <=? 4 / 2 then 3 else 4 - 3)
                         * (if 3 <=? 4 / 2 then 3 else 4 - 3)
                         + (if 2 <=? 6 / 2 then 2 else 6 - 2)
                           * (if 2 <=? 6 / 2 then 2 else 6 - 2)))) / PI)%R.
Proof.
  apply (green_kernel_values kernel_4x6 3 2); cbn; lia.
Defined.

(** X4: [fill_green_fct] writes every cell of the grid: two grids of the
    same size are filled alike, whatever they held before, and the size is
    kept. *)
Theorem green_kernel_overwrites (g g' : Mat R) :
  1 <= cols g < 2 ^ 31 -> 1 <= rows g < 2 ^ 31 ->
  rows g' = rows g -> cols g' = cols g ->
  rows (fill_green_fct g) = rows g /\ cols (fill_green_fct g) = cols g
  /\ forall a b, 0 <= a < rows g -> 0 <= b < cols g ->
       Mat_at (fill_green_fct g') a b = Mat_at (fill_green_fct g) a b.
Proof.
  intros HX HY Hr Hc.
  destruct (fill_green_fct_at g HX HY) as (Hr1 & Hc1 & Hcell).
  destruct (fill_green_fct_at g') as (_ & _ & Hcell'); [lia | lia |].
  split; [exact Hr1 |]. split; [exact Hc1 |].
  intros a b Ha Hb. rewrite Hcell by assumption.
  rewrite Hcell' by lia. now rewrite Hr, Hc.
Qed.

Lemma green_kernel_overwrites_witness :
  rows (fill_green_fct kernel_4x6) = rows kernel_4x6
  /\ cols (fill_green_fct kernel_4x6) = cols kernel_4x6
  /\ forall a b, 0 <= a < rows kernel_4x6 -> 0 <= b < cols kernel_4x6 ->
       Mat_at (fill_green_fct (mkMat 4 6 (fun _ _ => 7%R))) a b
       = Mat_at (fill_green_fct kernel_4x6) a b.
Proof.
  apply (green_kernel_overwrites kernel_4x6 (mkMat 4 6 (fun _ _ => 7%R)));
    cbn; (lia || reflexivity).
Defined.

(** ** Shifts and derivatives *)

Ltac same_cell := zbool; try (f_equal; lia).

(** X5: a shift by [N] columns (rows), [N] no more than the grid has,
    followed by the opposite shift gives
    the grid back except for the [N] columns (rows) that left the grid on
    the way, which are zero; [ShiftRight] loses the first columns,
    [ShiftLeft] the last ones, [ShiftUp] the first rows and [ShiftDown] the
    last ones. *)
Theorem translateImg_round_trip (f : Mat R) (N r c : Z) :
  0 <= N <= cols f -> N <= rows f ->
  0 <= r < rows f -> 0 <= c < cols f ->
  Mat_at (translateImg (translateImg f N ShiftRight) N ShiftLeft) r c
  = (if c <? N then 0%R else Mat_at f r c)
  /\ Mat_at (translateImg (translateImg f N ShiftLeft) N ShiftRight) r c
     = (if c <? cols f - N then Mat_at f r c else 0%R)
  /\ Mat_at (translateImg (translateImg f N ShiftUp) N ShiftDown) r c
     = (if r <? N then 0%R else Mat_at f r c)
  /\ Mat_at (translateImg (translateImg f N ShiftDown) N ShiftUp) r c
     = (if r <? rows f - N then Mat_at f r c else 0%R).
Proof.
  intros HN HN' Hr Hc.
  unfold translateImg, copy_rect, Mat_zeros. cbn [Mat_at rows cols].
  repeat split; same_cell.
Qed.

Lemma translateImg_round_trip_witness :
  Mat_at (translateImg (translateImg row_of_squares 1 ShiftRight) 1 ShiftLeft) 0 3
  = (if 3 <? 1 then 0%R else Mat_at row_of_squares 0 3)
  /\ Mat_at (translateImg (translateImg row_of_squares 1 ShiftLeft) 1 ShiftRight) 0 3
     = (if 3 <? cols row_of_squares - 1 then Mat_at row_of_squares 0 3 else 0%R)
  /\ Mat_at (translateImg (translateImg row_of_squares 1 ShiftUp) 1 ShiftDown) 0 3
     = (if 0 <? 1 then 0%R else Mat_at row_of_squares 0 3)
  /\ Mat_at (translateImg (translateImg row_of_squares 1 ShiftDown) 1 ShiftUp) 0 3
     = (if 0 <? rows row_of_squares - 1 then Mat_at row_of_squares 0 3 else 0%R).
Proof.
  apply (translateImg_round_trip row_of_squares 1 0 3); cbn; lia.
Defined.

(** The cells of the two derivatives, on a grid wide (high) enough. *)
Lemma deriv_x_at (f : Mat R) (r c : Z) :
  5 <= cols f -> 0 <= r < rows f -> 0 <= c < cols f ->
  Mat_at (deriv_x f) r c = central_x f r (replicated (cols f) c).
Proof.
  intros Hn Hr Hc. unfold deriv_x.
  set (res := half_diff (translateImg f 1 ShiftRight) (translateImg f 1 ShiftLeft)).
  change (cols res) with (cols f).
  destruct (deriv_x_border_loop res (cols f) Hn) as (_ & _ & Hcell).
  change (rows res) with (rows f) in *.
  rewrite (Hcell r c Hr Hc).
  apply finite_difference_x; [exact Hr | unfold replicated; zbool].
Qed.

Lemma deriv_y_at (f : Mat R) (r c : Z) :
  5 <= rows f -> 0 <= r < rows f -> 0 <= c < cols f ->
  Mat_at (deriv_y f) r c = central_y f (replicated (rows f) r) c.
Proof.
  intros Hn Hr Hc. unfold deriv_y.
  set (res := half_diff (translateImg f 1 ShiftUp) (translateImg f 1 ShiftDown)).
  change (rows res) with (rows f).
  destruct (deriv_y_border_loop res (rows f) Hn) as (_ & _ & Hcell).
  change (cols res) with (cols f) in *.
  rewrite (Hcell r c Hr Hc).
  apply finite_difference_y; [unfold replicated; zbool | exact Hc].
Qed.

(** X6: on a grid of at least 5 columns and 5 rows whose cells follow
    [a * column + b * row + k], [deriv_x] is [a] and [deriv_y] is [b] in
    every cell, the border cells included. *)
Theorem deriv_exact_on_ramps (f : Mat R) (a b k : R) (r c : Z) :
  (forall r c, Mat_at f r c = (a * IZR c + b * IZR r + k)%R) ->
  5 <= cols f -> 5 <= rows f ->
  0 <= r < rows f -> 0 <= c < cols f ->
  Mat_at (deriv_x f) r c = a /\ Mat_at (deriv_y f) r c = b.
Proof.
  intros Hf Hcols Hrows Hr Hc. split.
  - rewrite deriv_x_at by assumption. unfold central_x. rewrite !Hf.
    rewrite plus_IZR, minus_IZR. field.
  - rewrite deriv_y_at by assumption. unfold central_y. rewrite !Hf.
    rewrite plus_IZR, minus_IZR. field.
Qed.

(** A ramp of 5 x 5 cells: 3 per column, 2 per row, 1 at the origin. *)
Definition ramp_5x5 : Mat R :=
  mkMat 5 5 (fun r c => (3 * IZR c + 2 * IZR r + 1)%R).

Lemma deriv_exact_on_ramps_witness :
  Mat_at (deriv_x ramp_5x5) 0 4 = 3%R /\ Mat_at (deriv_y ramp_5x5) 0 4 = 2%R.
Proof.
  apply (deriv_exact_on_ramps ramp_5x5 3 2 1 0 4);
    [intros; reflexivity | cbn; lia ..].
Defined.

(** X7: the derivatives are linear: on grids of the same size with at
    least 5 columns (rows), the derivative of [s * f + t * g] is [s] times
    the derivative of [f] plus [t] times that of [g], in every cell. *)
Theorem deriv_linear (f g h : Mat R) (s t : R) (r c : Z) :
  (forall r c, Mat_at h r c = (s * Mat_at f r c + t * Mat_at g r c)%R) ->
  rows g = rows f -> cols g = cols f -> rows h = rows f -> cols h = cols f ->
  0 <= r < rows f -> 0 <= c < cols f ->
  (5 <= cols f ->
   Mat_at (deriv_x h) r c
   = (s * Mat_at (deriv_x f) r c + t * Mat_at (deriv_x g) r c)%R)
  /\ (5 <= rows f ->
      Mat_at (deriv_y h) r c
      = (s * Mat_at (deriv_y f) r c + t * Mat_at (deriv_y g) r c)%R).
Proof.
  intros Hh Hrg Hcg Hrh Hch Hr Hc. split; intros Hn.
  - rewrite !deriv_x_at by lia. rewrite Hcg, Hch.
    unfold central_x. rewrite !Hh. field.
  - rewrite !deriv_y_at by lia. rewrite Hrg, Hrh.
    unfold central_y. rewrite !Hh. field.
Qed.

Lemma deriv_linear_witness :
  (5 <= cols ramp_5x5 ->
   Mat_at (deriv_x (Mat_map2 (fun x y => (2 * x + 3 * y)%R) ramp_5x5 ramp_5x5)) 1 1
   = (2 * Mat_at (deriv_x ramp_5x5) 1 1 + 3 * Mat_at (deriv_x ramp_5x5) 1 1)%R)
  /\ (5 <= rows ramp_5x5 ->
      Mat_at (deriv_y (Mat_map2 (fun x y => (2 * x + 3 * y)%R) ramp_5x5 ramp_5x5)) 1 1
      = (2 * Mat_at (deriv_y ramp_5x5) 1 1 + 3 * Mat_at (deriv_y ramp_5x5) 1 1)%R).
Proof.
  apply (deriv_linear ramp_5x5 ramp_5x5
           (Mat_map2 (fun x y => (2 * x + 3 * y)%R) ramp_5x5 ramp_5x5) 2 3 1 1);
    [intros; reflexivity | reflexivity | reflexivity | reflexivity | reflexivity
     | cbn; lia | cbn; lia].
Defined.

(** A property of the state that every step keeps holds after the loop. *)
Lemma for_loop_preserves {S : Type} (P : S -> Prop)
      (lo hi : Z) (body : Z -> S -> S) (s : S) :
  (forall i t, P t -> P (body i t)) -> P s -> P (for_loop lo hi body s).
Proof.
  intros Hstep. unfold for_loop. generalize (Z.to_nat (hi - lo)) as n.
  intros n. revert lo s. induction n as [| n IH]; intros lo s Hs.
  - exact Hs.
  - cbn [for_iter]. apply IH. now apply Hstep.
Qed.

(** Every cell of the grid is zero. *)
Definition zero_inside (m : Mat R) : Prop :=
  forall r c, 0 <= r < rows m -> 0 <= c < cols m -> Mat_at m r c = 0%R.

Lemma replicated_range (n k : Z) : 5 <= n -> 2 <= replicated n k <= n - 3.
Proof. intros Hn. unfold replicated. zbool. Qed.

Lemma deriv_x_size (f : Mat R) :
  5 <= cols f -> rows (deriv_x f) = rows f /\ cols (deriv_x f) = cols f.
Proof.
  intros Hn. unfold deriv_x.
  set (res := half_diff (translateImg f 1 ShiftRight) (translateImg f 1 ShiftLeft)).
  change (cols res) with (cols f).
  destruct (deriv_x_border_loop res (cols f) Hn) as (Hr & Hc & _).
  split; [exact Hr | exact Hc].
Qed.

Lemma deriv_y_size (f : Mat R) :
  5 <= rows f -> rows (deriv_y f) = rows f /\ cols (deriv_y f) = cols f.
Proof.
  intros Hn. unfold deriv_y.
  set (res := half_diff (translateImg f 1 ShiftUp) (translateImg f 1 ShiftDown)).
  change (rows res) with (rows f).
  destruct (deriv_y_border_loop res (rows f) Hn) as (Hr & Hc & _).
  split; [exact Hr | exact Hc].
Qed.

Lemma deriv_x_zero (f : Mat R) :
  5 <= cols f -> zero_inside f -> zero_inside (deriv_x f).
Proof.
  intros Hn Hf r c. destruct (deriv_x_size f Hn) as [-> ->]. intros Hr Hc.
  rewrite deriv_x_at by assumption.
  pose proof (replicated_range (cols f) c Hn) as Hk.
  unfold central_x. rewrite !Hf by lia. lra.
Qed.

Lemma deriv_y_zero (f : Mat R) :
  5 <= rows f -> zero_inside f -> zero_inside (deriv_y f).
Proof.
  intros Hn Hf r c. destruct (deriv_y_size f Hn) as [-> ->]. intros Hr Hc.
  rewrite deriv_y_at by assumption.
  pose proof (replicated_range (rows f) r Hn) as Hk.
  unfold central_y. rewrite !Hf by lia. lra.
Qed.

(** X8: on a grid of at least 5 rows and 5 columns, a potential that is
    zero in every cell gives a deflection field and a shear that are zero
    in every cell, and [raytrace_pixel] then returns the pixel it is given
    at every cell of the grid, for every scale factor and weight. *)
Theorem zero_potential_no_deflection (l : Lens.lensT) :
  5 <= rows (Lens.psi l) -> 5 <= cols (Lens.psi l) ->
  zero_inside (Lens.psi l) ->
  let l' := LensBuild.compute_derivatives_from_psi l in
  zero_inside (Lens.alpha1 l') /\ zero_inside (Lens.alpha2 l')
  /\ zero_inside (Lens.shear l')
  /\ forall x1 x2 rel1 rel2 s,
       0 <= rel2 < rows (Lens.psi l) -> 0 <= rel1 < cols (Lens.psi l) ->
       Lens.raytrace_pixel l' x1 x2 rel1 rel2 s = (IZR x1, IZR x2).
Proof.
  intros Hrows Hcols Hpsi l'.
  destruct (deriv_x_size _ Hcols) as [Hxr Hxc].
  destruct (deriv_y_size _ Hrows) as [Hyr Hyc].
  assert (H1 : zero_inside (Lens.alpha1 l')) by now apply deriv_x_zero.
  assert (H2 : zero_inside (Lens.alpha2 l')) by now apply deriv_y_zero.
  split; [exact H1 |]. split; [exact H2 |]. split.
  - assert (H11 : zero_inside (deriv_x (deriv_x (Lens.psi l))))
      by (apply deriv_x_zero; [lia | exact H1]).
    assert (H22 : zero_inside (deriv_y (deriv_y (Lens.psi l))))
      by (apply deriv_y_zero; [lia | exact H2]).
    assert (H12 : zero_inside (deriv_y (deriv_x (Lens.psi l))))
      by (apply deriv_y_zero; [lia | exact H1]).
    destruct (deriv_x_size (deriv_x (Lens.psi l)) ltac:(lia)) as [Hr11 Hc11].
    destruct (deriv_y_size (deriv_y (Lens.psi l)) ltac:(lia)) as [Hr22 Hc22].
    destruct (deriv_y_size (deriv_x (Lens.psi l)) ltac:(lia)) as [Hr12 Hc12].
    intros r c. subst l'. unfold LensBuild.compute_derivatives_from_psi.
    cbn [Lens.shear Lens.with_derivatives Mat_map Mat_map2 Mat_at rows cols].
    intros Hr Hc.
    rewrite H11, H22, H12 by lia.
    replace (0.25 * ((0 - 0) * (0 - 0)) + 0 * 0)%R with 0%R by lra.
    apply sqrt_0.
  - intros x1 x2 rel1 rel2 s Hr Hc. unfold Lens.raytrace_pixel.
    rewrite H1, H2; [f_equal; ring | | | |];
      subst l'; cbn [LensBuild.compute_derivatives_from_psi Lens.alpha1 Lens.alpha2
                     Lens.with_derivatives]; lia.
Qed.

(** A lens of 5 x 5 cells at the origin whose potential is zero. *)
Definition lens_flat : Lens.lensT :=
  Lens.mk_lensT (0, 0) (5, 5) 5 5
    (Mat_zeros 5 5) (Mat_zeros 5 5) (Mat_zeros 5 5) (Mat_zeros 5 5)
    (Mat_zeros8u 5 5) (Mat_zeros 5 5)
    (Mat_zeros8u 5 5) (Mat_zeros8u 5 5) 1%R.

Lemma zero_potential_no_deflection_witness :
  (5 <= rows (Lens.psi lens_flat) /\ 5 <= cols (Lens.psi lens_flat)
   /\ zero_inside (Lens.psi lens_flat))
  /\ (0 <= 3 < rows (Lens.psi lens_flat) /\ 0 <= 2 < cols (Lens.psi lens_flat))
  /\ Lens.raytrace_pixel (LensBuild.compute_derivatives_from_psi lens_flat) 7 9 2 3 1
     = (IZR 7, IZR 9).
Proof.
  assert (Hr : 5 <= rows (Lens.psi lens_flat)) by (cbn; lia).
  assert (Hc : 5 <= cols (Lens.psi lens_flat)) by (cbn; lia).
  assert (Hz : zero_inside (Lens.psi lens_flat)) by (intros r c _ _; reflexivity).
  assert (Hr3 : 0 <= 3 < rows (Lens.psi lens_flat)) by (cbn; lia).
  assert (Hc2 : 0 <= 2 < cols (Lens.psi lens_flat)) by (cbn; lia).
  split; [exact (conj Hr (conj Hc Hz)) |]. split; [exact (conj Hr3 Hc2) |].
  exact (proj2 (proj2 (proj2 (zero_potential_no_deflection lens_flat Hr Hc Hz)))
               7 9 2 3 1%R Hr3 Hc2).
Defined.

(** ** Where lens and source are *)

(** X9: after [lensT::move] to the centre [(cx, cy)], [contains] accepts
    exactly the pixels whose offset from the origin [centre - size/2] lies
    between 1 and [size - 1] on both axes: the offsets at which the
    renderer reads the overlay maps are inside the maps and never in their
    row 0 or column 0. *)
Theorem lens_contains_after_move (l : Lens.lensT) (cx cy x y : Z) :
  Lens.contains (Lens.move l cx cy) x y = true
  <-> 1 <= x - (cx - int_div (Lens.w l) 2) <= Lens.w l - 1
      /\ 1 <= y - (cy - int_div (Lens.h l) 2) <= Lens.h l - 1.
Proof.
  unfold Lens.contains, Lens.move. cbn [Lens.origin Lens.end_points Lens.with_geometry fst snd].
  rewrite !andb_true_iff, !Z.ltb_lt. lia.
Qed.

(** X10: at integer coordinates [sourceT::contains] compares the column
    with the bounds as it is, but the row only when it is not negative: a
    negative row [b] is compared as [b + 1], since the row is rounded by
    adding one half and truncating toward zero. *)
Theorem source_contains_integer (s : Source.sourceT) (a b : Z) :
  Source.contains s (IZR a) (IZR b)
  = let b' := if 0 <=? b then b else b + 1 in
    (fst (Source.origin s) <? a) && (a <? fst (Source.end_points s))
    && (snd (Source.origin s) <? b') && (b' <? snd (Source.end_points s)).
Proof.
  unfold Source.contains. rewrite int_of_double_IZR.
  assert (Hb : int_of_double (IZR b + 0.5) = if 0 <=? b then b else b + 1).
  { destruct (Z.leb_spec 0 b) as [Hb | Hb].
    - now apply int_of_double_half.
    - assert (IZR b <= -1)%R by (apply IZR_le; lia).
      apply int_of_double_eq_neg; [lra |]. rewrite plus_IZR. lra. }
  rewrite Hb. reflexivity.
Qed.

Lemma int_of_double_below (x : R) (n : Z) :
  0 < n -> (x < IZR n)%R -> int_of_double x < n.
Proof.
  intros Hn Hx. unfold int_of_double. destruct (Rle_dec 0 x).
  - pose proof (Zfloor_bound x) as Hb.
    apply lt_IZR. lra.
  - assert (Hc : Zceil x <= 0).
    { pose proof (Zceil_bound x) as Hb.
      assert (IZR (Zceil x) < IZR 1)%R by (simpl; lra).
      apply lt_IZR in H. lia. }
    lia.
Qed.

Lemma contains_needs_size (s : Source.sourceT) (x_ y_ : R) :
  Source.end_points s
  = (fst (Source.origin s) + Source.w s, snd (Source.origin s) + Source.h s) ->
  Source.w s <= 1 \/ Source.h s <= 1 ->
  Source.contains s x_ y_ = false.
Proof.
  intros He Hsmall. unfold Source.contains. rewrite He. cbn [fst snd].
  apply not_true_is_false. rewrite !andb_true_iff, !Z.ltb_lt. lia.
Qed.

(** X11: a resize whose rounded product of the image width (or height) and
    the factor is below 2 makes every sample of the source black, and one
    whose product is below 1 leaves the channels of the previous size in
    place. *)
Theorem resize_area_degenerate (cv_resize : Mat Vec3b -> R -> Mat Vec3b)
        (double_mul : R -> R -> R) (s : Source.sourceT) (factor : R) :
  ((double_mul (IZR (cols (Source.imageRGB s))) factor < 2
    \/ double_mul (IZR (rows (Source.imageRGB s))) factor < 2)%R ->
   forall beta1 beta2,
     Source.get_linear_interpolated_pixel
       (Source.resize_area cv_resize double_mul s factor) beta1 beta2 = (0, 0, 0))
  /\ ((double_mul (IZR (cols (Source.imageRGB s))) factor < 1
       \/ double_mul (IZR (rows (Source.imageRGB s))) factor < 1)%R ->
      Source.channels (Source.resize_area cv_resize double_mul s factor)
      = Source.channels s).
Proof.
  split.
  - intros Hsmall beta1 beta2. unfold Source.get_linear_interpolated_pixel.
    rewrite contains_needs_size; [reflexivity | reflexivity |].
    cbn [Source.resize_area Source.move Source.w Source.h].
    destruct Hsmall as [H | H]; [left | right];
      apply (int_of_double_below _ 2) in H; lia.
  - intros Hsmall. unfold Source.resize_area, Source.move. cbn [Source.channels].
    assert (Hno : (int_of_double (double_mul (IZR (cols (Source.imageRGB s))) factor) >? 0)
                  && (int_of_double (double_mul (IZR (rows (Source.imageRGB s))) factor) >? 0)
                  = false).
    { apply not_true_is_false. rewrite andb_true_iff.
      intros [H1 H2]. apply Z.gtb_lt in H1, H2.
      destruct Hsmall as [H | H]; apply (int_of_double_below _ 1) in H; lia. }
    now rewrite Hno.
Qed.

(** The factor 0: the products are 0, exactly. *)
Lemma resize_area_degenerate_witness :
  (IZR (cols (Source.imageRGB source_plain)) * 0 < 2
   \/ IZR (rows (Source.imageRGB source_plain)) * 0 < 2)%R
  /\ Source.get_linear_interpolated_pixel
       (Source.resize_area (fun m _ => m) Rmult source_plain 0) 10 20 = (0, 0, 0).
Proof.
  assert (H : (IZR (cols (Source.imageRGB source_plain)) * 0 < 2
               \/ IZR (rows (Source.imageRGB source_plain)) * 0 < 2)%R)
    by (left; cbn; lra).
  split.
  - exact H.
  - exact (proj1 (resize_area_degenerate (fun m _ => m) Rmult source_plain 0%R)
                 H 10%R 20%R).
Defined.

(** X12: resizes do not add up: after two calls of [resize_area] the
    width, the height, the origin, the centre and the end points are those
    of the second call alone, and so are the channels when the second size
    is not empty. *)
Theorem resize_area_last_wins (cv_resize : Mat Vec3b -> R -> Mat Vec3b)
        (double_mul : R -> R -> R) (s : Source.sourceT) (f1 f2 : R) :
  let s12 := Source.resize_area cv_resize double_mul
               (Source.resize_area cv_resize double_mul s f1) f2 in
  let s2 := Source.resize_area cv_resize double_mul s f2 in
  Source.w s12 = Source.w s2 /\ Source.h s12 = Source.h s2
  /\ Source.origin s12 = Source.origin s2
  /\ Source.pos s12 = Source.pos s2
  /\ Source.end_points s12 = Source.end_points s2
  /\ Source.imageRGB s12 = Source.imageRGB s2
  /\ (Source.w s2 > 0 /\ Source.h s2 > 0 ->
      Source.channels s12 = Source.channels s2).
Proof.
  intros s12 s2. subst s12 s2. unfold Source.resize_area, Source.move.
  cbn [Source.w Source.h Source.origin Source.pos Source.end_points
       Source.imageRGB Source.channels fst snd].
  set (w1 := int_of_double (double_mul (IZR (cols (Source.imageRGB s))) f1)).
  set (h1 := int_of_double (double_mul (IZR (rows (Source.imageRGB s))) f1)).
  set (w2 := int_of_double (double_mul (IZR (cols (Source.imageRGB s))) f2)).
  set (h2 := int_of_double (double_mul (IZR (rows (Source.imageRGB s))) f2)).
  split; [reflexivity |]. split; [reflexivity |].
  split; [f_equal; lia |]. split; [f_equal; lia |]. split; [f_equal; lia |].
  split; [reflexivity |].
  intros [Hw Hh].
  destruct (Z.gtb_spec w2 0), (Z.gtb_spec h2 0); try lia. reflexivity.
Qed.

(** The factors 3 and 1: the products are exact as doubles. *)
Lemma resize_area_last_wins_witness :
  (Source.w (Source.resize_area (fun m _ => m) Rmult source_plain 1) > 0
   /\ Source.h (Source.resize_area (fun m _ => m) Rmult source_plain 1) > 0)
  /\ Source.channels (Source.resize_area (fun m _ => m) Rmult
                        (Source.resize_area (fun m _ => m) Rmult source_plain 3) 1)
     = Source.channels (Source.resize_area (fun m _ => m) Rmult source_plain 1).
Proof.
  assert (H : Source.w (Source.resize_area (fun m _ => m) Rmult source_plain 1) > 0
              /\ Source.h (Source.resize_area (fun m _ => m) Rmult source_plain 1) > 0).
  { cbn [Source.resize_area Source.move Source.w Source.h source_plain
         Source.sourceT_new Source.imageRGB cols rows].
    rewrite !Rmult_1_r, !int_of_double_IZR. lia. }
  split.
  - exact H.
  - exact (proj2 (proj2 (proj2 (proj2 (proj2 (proj2
             (resize_area_last_wins (fun m _ => m) Rmult source_plain 3 1))))))
             H).
Defined.

(** ** Sampling stays within the image *)




(** ** The renderer, pixel by pixel *)

(** The weight and the row index a row of the renderer works with. *)
Definition row_weights (screen : Renderer.screenT) (recompute_lensed : bool)
           (i : Z) : R * Z :=
  let l := Renderer.lens screen in
  if recompute_lensed
  then relocate_and_compute_exp_falloff (i - snd (Lens.origin l)) (Lens.h l)
         (IZR (Lens.h l) * 0.5) (IZR (Lens.h l) - 1)
  else (1%R, 0).

(** The loop body as the row loop calls it. *)
Definition pixel_step (screen : Renderer.screenT) (recompute_lensed : bool)
           (i j : Z) (t : Renderer.buffers) : Renderer.buffers :=
  Renderer.render_pixel screen recompute_lensed i
    (i - snd (Lens.origin (Renderer.lens screen)))
    (snd (row_weights screen recompute_lensed i))
    (fst (row_weights screen recompute_lensed i)) j t.

Lemma render_row_steps (screen : Renderer.screenT) (recompute_lensed : bool)
      (i : Z) (b : Renderer.buffers) :
  Renderer.render_row screen recompute_lensed i b
  = for_loop 0 (Renderer.max_w screen) (pixel_step screen recompute_lensed i) b.
Proof.
  unfold Renderer.render_row, pixel_step, row_weights.
  destruct (if recompute_lensed then _ else _) as [fi safe_i]. reflexivity.
Qed.

(** A property of single pixels that the loop body establishes at its own
    pixel holds for every pixel of the row after the row, and the row
    changes no pixel outside itself. *)
Lemma render_row_pixelwise (screen : Renderer.screenT) (recompute_lensed : bool)
      (Q : Z -> Vec3b -> Vec3b -> Prop) (i : Z) (b : Renderer.buffers) :
  (forall j t, 0 <= j < Renderer.max_w screen ->
               Mat_at (fst t) i j = Mat_at (fst b) i j ->
               let res := pixel_step screen recompute_lensed i j t in
               Q j (Mat_at (fst res) i j) (Mat_at (snd res) i j)) ->
  let res := Renderer.render_row screen recompute_lensed i b in
  (forall j, 0 <= j < Renderer.max_w screen ->
             Q j (Mat_at (fst res) i j) (Mat_at (snd res) i j))
  /\ (forall r c, ~ (r = i /\ 0 <= c < Renderer.max_w screen) ->
                  Mat_at (fst res) r c = Mat_at (fst b) r c
                  /\ Mat_at (snd res) r c = Mat_at (snd b) r c).
Proof.
  intros Hpix res. subst res. rewrite render_row_steps.
  destruct (Z.le_gt_cases 0 (Renderer.max_w screen)) as [Hw | Hw].
  2: { rewrite for_loop_empty by lia. split; [intros; lia | easy]. }
  pose (P := fun (k : Z) (t : Renderer.buffers) =>
               (forall j, 0 <= j < k ->
                          Q j (Mat_at (fst t) i j) (Mat_at (snd t) i j))
               /\ (forall r c, ~ (r = i /\ 0 <= c < k) ->
                               Mat_at (fst t) r c = Mat_at (fst b) r c
                               /\ Mat_at (snd t) r c = Mat_at (snd b) r c)).
  apply (for_loop_invariant P); [exact Hw | |].
  - split; [intros; lia | easy].
  - intros j t Hj (Hdone & Hframe). split.
    + intros j' Hj'. destruct (Z.eq_dec j' j) as [-> | Hne].
      * apply Hpix; [exact Hj |]. apply Hframe. lia.
      * unfold pixel_step.
        destruct (render_pixel_frame screen recompute_lensed i
                    (i - snd (Lens.origin (Renderer.lens screen)))
                    (snd (row_weights screen recompute_lensed i))
                    (fst (row_weights screen recompute_lensed i)) j t
                    i j' ltac:(right; exact Hne)) as [-> ->].
        apply Hdone. lia.
    + intros r c Hout. unfold pixel_step.
      destruct (render_pixel_frame screen recompute_lensed i
                  (i - snd (Lens.origin (Renderer.lens screen)))
                  (snd (row_weights screen recompute_lensed i))
                  (fst (row_weights screen recompute_lensed i)) j t
                  r c ltac:(lia)) as [-> ->].
      apply Hframe. lia.
Qed.

(** The same for a range of rows. *)
Lemma render_rows_pixelwise (screen : Renderer.screenT) (recompute_lensed : bool)
      (Q : Z -> Z -> Vec3b -> Vec3b -> Prop) (a b : Z) (bufs : Renderer.buffers) :
  (forall i j t, a <= i < b -> 0 <= j < Renderer.max_w screen ->
                 Mat_at (fst t) i j = Mat_at (fst bufs) i j ->
                 let res := pixel_step screen recompute_lensed i j t in
                 Q i j (Mat_at (fst res) i j) (Mat_at (snd res) i j)) ->
  let res := for_loop a b (Renderer.render_row screen recompute_lensed) bufs in
  (forall i j, a <= i < b -> 0 <= j < Renderer.max_w screen ->
               Q i j (Mat_at (fst res) i j) (Mat_at (snd res) i j))
  /\ (forall r c, ~ (a <= r < b /\ 0 <= c < Renderer.max_w screen) ->
                  Mat_at (fst res) r c = Mat_at (fst bufs) r c
                  /\ Mat_at (snd res) r c = Mat_at (snd bufs) r c).
Proof.
  intros Hpix res. subst res.
  destruct (Z.le_gt_cases a b) as [Hle | Hgt].
  2: { rewrite for_loop_empty by lia. split; [intros; lia | easy]. }
  pose (P := fun (k : Z) (t : Renderer.buffers) =>
               (forall i j, a <= i < k -> 0 <= j < Renderer.max_w screen ->
                            Q i j (Mat_at (fst t) i j) (Mat_at (snd t) i j))
               /\ (forall r c, ~ (a <= r < k /\ 0 <= c < Renderer.max_w screen) ->
                               Mat_at (fst t) r c = Mat_at (fst bufs) r c
                               /\ Mat_at (snd t) r c = Mat_at (snd bufs) r c)).
  apply (for_loop_invariant P); [exact Hle | |].
  - split; [intros; lia | easy].
  - intros i t Hi (Hdone & Hframe).
    destruct (render_row_pixelwise screen recompute_lensed (Q i) i t)
      as (Hrow & Hrest).
    { intros j t' Hj Ht'. apply Hpix; [lia | exact Hj |].
      rewrite Ht'. apply Hframe. lia. }
    split.
    + intros i' j Hi' Hj. destruct (Z.eq_dec i' i) as [-> | Hne].
      * now apply Hrow.
      * destruct (Hrest i' j ltac:(lia)) as [-> ->]. apply Hdone; lia.
    + intros r c Hout. destruct (Hrest r c ltac:(lia)) as [-> ->].
      apply Hframe. lia.
Qed.

Lemma Parallel_renderer_buffers (screen : Renderer.screenT) (recompute_lensed : bool)
      (a b : Z) :
  let out := Renderer.Parallel_renderer screen recompute_lensed a b in
  let res := for_loop a b (Renderer.render_row screen recompute_lensed)
               (Renderer.lensedRGB screen, Renderer.finalRGB screen) in
  Renderer.lensedRGB out = fst res /\ Renderer.finalRGB out = snd res
  /\ Renderer.lens out = Renderer.lens screen
  /\ Renderer.src out = Renderer.src screen
  /\ Renderer.max_w out = Renderer.max_w screen
  /\ Renderer.overlay_mode out = Renderer.overlay_mode screen.
Proof.
  intros out res. subst out res. unfold Renderer.Parallel_renderer.
  destruct (for_loop _ _ _ _) as [L F]. repeat split.
Qed.

(** X14: a pass of the renderer over the rows [[a, b)] changes no pixel
    outside these rows and the columns [[0, max_w)], in the lensed buffer
    and in the final one, and leaves lens, source, width and overlay mode
    as they are. *)
Theorem Parallel_renderer_frame (screen : Renderer.screenT)
        (recompute_lensed : bool) (a b : Z) :
  let out := Renderer.Parallel_renderer screen recompute_lensed a b in
  (forall r c, ~ (a <= r < b /\ 0 <= c < Renderer.max_w screen) ->
               Mat_at (Renderer.lensedRGB out) r c
               = Mat_at (Renderer.lensedRGB screen) r c
               /\ Mat_at (Renderer.finalRGB out) r c
                  = Mat_at (Renderer.finalRGB screen) r c)
  /\ Renderer.lens out = Renderer.lens screen
  /\ Renderer.src out = Renderer.src screen
  /\ Renderer.max_w out = Renderer.max_w screen
  /\ Renderer.overlay_mode out = Renderer.overlay_mode screen.
Proof.
  intros out.
  destruct (Parallel_renderer_buffers screen recompute_lensed a b)
    as (HL & HF & Hrest).
  fold out in HL, HF, Hrest. split; [| exact Hrest].
  intros r c Hout. rewrite HL, HF.
  now apply (render_rows_pixelwise screen recompute_lensed
               (fun _ _ _ _ => True) a b).
Qed.

Lemma for_loop_ext {S : Type} (lo hi : Z) (body body' : Z -> S -> S) (s : S) :
  (forall i t, body i t = body' i t) ->
  for_loop lo hi body s = for_loop lo hi body' s.
Proof.
  intros Hext. unfold for_loop. generalize (Z.to_nat (hi - lo)) as n.
  intros n. revert lo s. induction n as [| n IH]; intros lo s.
  - reflexivity.
  - cbn [for_iter]. rewrite Hext. apply IH.
Qed.

(** A row of the renderer reads the screen but for its two buffers. *)
Lemma render_row_buffers (screen : Renderer.screenT) (L F : Mat Vec3b)
      (recompute_lensed : bool) (i : Z) (t : Renderer.buffers) :
  Renderer.render_row
    (Renderer.mk_screenT (Renderer.max_w screen) (Renderer.lens screen)
       (Renderer.src screen) L F (Renderer.overlay_mode screen))
    recompute_lensed i t
  = Renderer.render_row screen recompute_lensed i t.
Proof. destruct screen. reflexivity. Qed.

(** X15: rendering the rows [[a, b)] and then the rows [[b, c)] gives the
    screen that rendering [[a, c)] in one call gives: the row ranges that
    [cv::parallel_for_] hands out compose. *)
Theorem Parallel_renderer_ranges (screen : Renderer.screenT)
        (recompute_lensed : bool) (a b c : Z) :
  a <= b <= c ->
  Renderer.Parallel_renderer
    (Renderer.Parallel_renderer screen recompute_lensed a b) recompute_lensed b c
  = Renderer.Parallel_renderer screen recompute_lensed a c.
Proof.
  intros Habc. unfold Renderer.Parallel_renderer at 1 3.
  rewrite (for_loop_split a b c) by exact Habc.
  unfold Renderer.Parallel_renderer.
  destruct (for_loop a b _ _) as [L F].
  cbn [Renderer.lensedRGB Renderer.finalRGB Renderer.max_w Renderer.lens
       Renderer.src Renderer.overlay_mode].
  rewrite (for_loop_ext b c _ (Renderer.render_row screen recompute_lensed))
    by (intros; apply render_row_buffers).
  reflexivity.
Qed.

Lemma Parallel_renderer_ranges_witness :
  0 <= 1 <= 3
  /\ Renderer.Parallel_renderer
       (Renderer.Parallel_renderer screen_3x3 false 0 1) false 1 3
     = Renderer.Parallel_renderer screen_3x3 false 0 3.
Proof.
  split; [lia | apply (Parallel_renderer_ranges screen_3x3 false 0 1 3); lia].
Defined.

Lemma Vec3b_eta (v : Vec3b) :
  (Vec3b_get v 0, Vec3b_get v 1, Vec3b_get v 2) = v.
Proof. destruct v as [[v0 v1] v2]. reflexivity. Qed.

(** The loop body where no overlay applies: the final pixel is the lensed
    one. *)
Lemma render_pixel_plain (screen : Renderer.screenT) (recompute_lensed : bool)
      (i rel_i safe_i : Z) (fi : R) (j : Z) (b : Renderer.buffers) :
  Renderer.show_overlays screen = false
  \/ Lens.contains (Renderer.lens screen) j i = false ->
  uchar_Vec3b (Mat_at (fst b) i j) ->
  let res := Renderer.render_pixel screen recompute_lensed i rel_i safe_i fi j b in
  Mat_at (snd res) i j = Mat_at (fst res) i j.
Proof.
  intros Hoff Hpx res. subst res. destruct b as [L F]. cbn [fst snd] in Hpx.
  unfold Renderer.render_pixel.
  assert (Hc : Renderer.show_overlays screen
               && Lens.contains (Renderer.lens screen) j i = false)
    by (destruct Hoff as [-> | ->]; [reflexivity | apply andb_false_r]).
  rewrite Hc.
  destruct (raytrace_and_compose_spec screen recompute_lensed i j
              (j - fst (Lens.origin (Renderer.lens screen))) safe_i fi 0 false L F)
    as (px & Hbytes & ->).
  cbn [fst snd negb]. rewrite compose_loop, !Z.eqb_refl. cbn [andb].
  set (L' := if recompute_lensed then Mat_set L i j px else L).
  assert (HL' : uchar_Vec3b (Mat_at L' i j)).
  { subst L'. destruct recompute_lensed; [| exact Hpx]. now rewrite Mat_at_set_same. }
  rewrite !composed_clamp by (pose proof (HL' 0); pose proof (HL' 1);
                              pose proof (HL' 2); lia).
  rewrite !Z.add_0_r.
  rewrite !Z.min_r by (pose proof (HL' 0); pose proof (HL' 1);
                       pose proof (HL' 2); lia).
  apply Vec3b_eta.
Qed.

(** X16: where no overlay applies, because the overlays are switched off
    or the pixel lies outside the lens footprint, the pass copies the
    lensed pixel to the final buffer unchanged (the lensed buffer holding
    bytes). *)
Theorem render_without_overlay (screen : Renderer.screenT)
        (recompute_lensed : bool) (a b : Z) :
  (forall r c, uchar_Vec3b (Mat_at (Renderer.lensedRGB screen) r c)) ->
  let out := Renderer.Parallel_renderer screen recompute_lensed a b in
  forall i j,
    a <= i < b -> 0 <= j < Renderer.max_w screen ->
    Renderer.show_overlays screen = false
    \/ Lens.contains (Renderer.lens screen) j i = false ->
    Mat_at (Renderer.finalRGB out) i j = Mat_at (Renderer.lensedRGB out) i j.
Proof.
  intros Hbytes out i j Hi Hj Hoff.
  destruct (Parallel_renderer_buffers screen recompute_lensed a b) as (HL & HF & _).
  fold out in HL, HF. rewrite HL, HF.
  apply (render_rows_pixelwise screen recompute_lensed
           (fun i j lensed final =>
              Renderer.show_overlays screen = false
              \/ Lens.contains (Renderer.lens screen) j i = false ->
              final = lensed) a b); try assumption.
  intros i' j' t Hi' Hj' Ht res Hoff'. subst res. unfold pixel_step.
  apply render_pixel_plain; [exact Hoff' |]. rewrite Ht. apply Hbytes.
Qed.

(** The screen above with the overlays switched off. *)
Definition screen_plain : Renderer.screenT :=
  Renderer.mk_screenT 3 lens_3x3 source_plain
    (mkMat 3 3 (fun _ _ => (7, 7, 7))) (mkMat 3 3 (fun _ _ => (0, 0, 0))) 0.

Lemma render_without_overlay_witness :
  Mat_at (Renderer.finalRGB (Renderer.Parallel_renderer screen_plain false 0 3)) 1 1
  = Mat_at (Renderer.lensedRGB (Renderer.Parallel_renderer screen_plain false 0 3)) 1 1.
Proof.
  apply (render_without_overlay screen_plain false 0 3 screen_3x3_bytes 1 1);
    [lia | cbn; lia | left; reflexivity].
Defined.


(** ** The caustic pass, cell by cell *)

Lemma marks_inside (lens : Lens.lensT) (width height i j r c : Z) :
  marks lens width height i j r c = true ->
  0 <= r < height /\ 0 <= c < width.
Proof.
  unfold marks. destruct (caustic_cell lens i j) as [b1 b2].
  rewrite !andb_true_iff. intros [[[[[_ H1] H2] H3] H4] Hfoot].
  apply Z.leb_le in H1, H3. apply Z.ltb_lt in H2, H4.
  unfold in_footprint in Hfoot. rewrite !orb_true_iff, !andb_true_iff in Hfoot.
  rewrite !Z.eqb_eq in Hfoot. lia.
Qed.

(** What every step of the pass keeps: a cell holds its first value or
    255, and its first value if it lies outside the map. *)
Definition only_marked (width height : Z) (cm0 cm : Mat Z) : Prop :=
  rows cm = rows cm0 /\ cols cm = cols cm0
  /\ forall r c,
      (Mat_at cm r c = Mat_at cm0 r c \/ Mat_at cm r c = 255)
      /\ (~ (0 <= r < height /\ 0 <= c < width) -> Mat_at cm r c = Mat_at cm0 r c).

Lemma invert_cc_pixel_only_marked (lens : Lens.lensT) (width height i j : Z)
      (cm0 cm : Mat Z) :
  only_marked width height cm0 cm ->
  only_marked width height cm0 (Inverter.invert_cc_pixel lens width height i j cm).
Proof.
  intros (Hr & Hc & Hcell).
  destruct (invert_cc_pixel_dims lens width height i j cm) as [Hr' Hc'].
  split; [congruence |]. split; [congruence |].
  intros r c. rewrite invert_cc_pixel_at.
  destruct (marks lens width height i j r c) eqn:E.
  - apply marks_inside in E. split; [now right | intros Hout; contradiction].
  - apply Hcell.
Qed.

Lemma invert_cc_loops_only_marked (lens : Lens.lensT) (width height a b : Z)
      (cm0 : Mat Z) :
  only_marked width height cm0
    (for_loop a b
       (fun i cm =>
          for_loop 0 width
            (fun j cm => Inverter.invert_cc_pixel lens width height i j cm) cm)
       cm0).
Proof.
  apply for_loop_preserves.
  - intros i t Ht. apply for_loop_preserves; [| exact Ht].
    intros j t' Ht'. now apply invert_cc_pixel_only_marked.
  - split; [reflexivity |]. split; [reflexivity |]. intros r c. split; [now left | reflexivity].
Qed.

(** X18: the caustic pass writes nothing but 255 and nothing outside the
    map: after it every cell holds its previous value or 255, a cell
    outside the rows and columns of the map its previous value, and the map
    has the size it had. *)
Theorem caustic_pass_only_marks (lens : Lens.lensT) (a b : Z) :
  let out := Lens.caustic_map (Inverter.invert_cc_map lens a b) in
  rows out = rows (Lens.caustic_map lens)
  /\ cols out = cols (Lens.caustic_map lens)
  /\ forall r c,
      (Mat_at out r c = Mat_at (Lens.caustic_map lens) r c \/ Mat_at out r c = 255)
      /\ (~ (0 <= r < rows (Lens.caustic_map lens)
             /\ 0 <= c < cols (Lens.caustic_map lens)) ->
          Mat_at out r c = Mat_at (Lens.caustic_map lens) r c).
Proof.
  intros out. subst out. unfold Inverter.invert_cc_map.
  cbn [Lens.caustic_map Lens.with_caustic_map].
  apply invert_cc_loops_only_marked.
Qed.

(** The pixel step reads the lens but for its caustic map. *)
Lemma invert_cc_pixel_lens (lens : Lens.lensT) (cm' : Mat Z)
      (width height i j : Z) (cm : Mat Z) :
  Inverter.invert_cc_pixel (Lens.with_caustic_map lens cm') width height i j cm
  = Inverter.invert_cc_pixel lens width height i j cm.
Proof. reflexivity. Qed.

(** X19: the caustic pass over the rows [[a, b)] followed by the pass over
    [[b, c)] gives the lens that the pass over [[a, c)] gives. *)
Theorem caustic_pass_ranges (lens : Lens.lensT) (a b c : Z) :
  a <= b <= c ->
  Inverter.invert_cc_map (Inverter.invert_cc_map lens a b) b c
  = Inverter.invert_cc_map lens a c.
Proof.
  intros Habc.
  destruct (invert_cc_loops_only_marked lens (cols (Lens.caustic_map lens))
              (rows (Lens.caustic_map lens)) a b (Lens.caustic_map lens))
    as (Hr & Hc & _).
  unfold Inverter.invert_cc_map at 1 3.
  rewrite (for_loop_split a b c) by exact Habc.
  unfold Inverter.invert_cc_map.
  cbn [Lens.caustic_map Lens.with_caustic_map].
  rewrite Hr, Hc. reflexivity.
Qed.

Lemma caustic_pass_ranges_witness :
  0 <= 1 <= 2
  /\ Inverter.invert_cc_map (Inverter.invert_cc_map lens_corner 0 1) 1 2
     = Inverter.invert_cc_map lens_corner 0 2.
Proof.
  split; [lia | apply (caustic_pass_ranges lens_corner 0 1 2); lia].
Defined.

(** Two passes in a row mark what either of them marks. *)
Lemma marked_by_union (lens : Lens.lensT) (width height : Z)
      (D1 D2 : Z -> Z -> Prop) (cm0 cm1 cm2 : Mat Z) :
  marked_by lens width height D1 cm0 cm1 ->
  marked_by lens width height D2 cm1 cm2 ->
  marked_by lens width height (fun i j => D1 i j \/ D2 i j) cm0 cm2.
Proof.
  intros (Hr1 & Hc1 & H1) (Hr2 & Hc2 & H2).
  split; [congruence |]. split; [congruence |].
  intros r c. destruct (H1 r c) as [Y1 N1]. destruct (H2 r c) as [Y2 N2]. split.
  - intros (i & j & [Hd | Hd] & Hm).
    + destruct (classic (exists i' j', D2 i' j'
                                       /\ marks lens width height i' j' r c = true))
        as [Hex | Hno]; [now apply Y2 |].
      rewrite N2, Y1; [reflexivity | now exists i, j |].
      intros i' j' Hd'.
      destruct (marks lens width height i' j' r c) eqn:E; [| reflexivity].
      exfalso. apply Hno. now exists i', j'.
    + apply Y2. now exists i, j.
  - intros Hnone. rewrite N2, N1; [reflexivity | |];
      intros i j Hd; apply Hnone; [now left | now right].
Qed.

(** The cells of the map are determined by the set of pixels processed. *)
Lemma marked_by_unique (lens : Lens.lensT) (width height : Z)
      (D D' : Z -> Z -> Prop) (cm0 cm cm' : Mat Z) (r c : Z) :
  (forall i j, D i j <-> D' i j) ->
  marked_by lens width height D cm0 cm ->
  marked_by lens width height D' cm0 cm' ->
  Mat_at cm r c = Mat_at cm' r c.
Proof.
  intros Hsame (_ & _ & H) (_ & _ & H').
  destruct (H r c) as [Y N]. destruct (H' r c) as [Y' N'].
  destruct (classic (exists i j, D i j /\ marks lens width height i j r c = true))
    as [(i & j & Hd & Hm) | Hno].
  - rewrite Y, Y'; [reflexivity | | ].
    + exists i, j. split; [now apply Hsame | exact Hm].
    + now exists i, j.
  - assert (Hnone : forall i j, D i j -> marks lens width height i j r c = false).
    { intros i j Hd. destruct (marks lens width height i j r c) eqn:E;
        [| reflexivity]. exfalso. apply Hno. now exists i, j. }
    rewrite N, N'; [reflexivity | | exact Hnone].
    intros i j Hd. apply Hnone. now apply Hsame.
Qed.

Lemma invert_twice_marked (lens : Lens.lensT) (a b c d : Z) :
  let width := cols (Lens.caustic_map lens) in
  let height := rows (Lens.caustic_map lens) in
  marked_by lens width height
    (fun i j => (a <= i < b /\ 0 <= j < width) \/ (c <= i < d /\ 0 <= j < width))
    (Lens.caustic_map lens)
    (Lens.caustic_map (Inverter.invert_cc_map (Inverter.invert_cc_map lens a b) c d)).
Proof.
  intros width height.
  pose proof (invert_cc_map_marked lens a b) as H1.
  pose proof (invert_cc_map_marked (Inverter.invert_cc_map lens a b) c d) as H2.
  cbv zeta in H1, H2. fold width height in H1.
  destruct H1 as (Hr & Hc & Hcell).
  rewrite Hr, Hc in H2. fold width height in H2.
  apply (marked_by_union lens width height _ _ _
           (Lens.caustic_map (Inverter.invert_cc_map lens a b)));
    [exact (conj Hr (conj Hc Hcell)) |].
  exact H2.
Qed.

(** X20: two caustic passes over two ranges of rows give the same map in
    either order: the rows can be handed to the workers in any order, and
    a cell that two rows mark is 255 whichever row writes last. *)
Theorem caustic_pass_order (lens : Lens.lensT) (a b c d r col : Z) :
  Mat_at (Lens.caustic_map
            (Inverter.invert_cc_map (Inverter.invert_cc_map lens a b) c d)) r col
  = Mat_at (Lens.caustic_map
              (Inverter.invert_cc_map (Inverter.invert_cc_map lens c d) a b)) r col.
Proof.
  eapply (marked_by_unique lens (cols (Lens.caustic_map lens))
            (rows (Lens.caustic_map lens)));
    [| apply (invert_twice_marked lens a b c d)
     | apply (invert_twice_marked lens c d a b)].
  intros i j. cbn beta. tauto.
Qed.

(** ** The binary map and the update of the curves *)

(** Two nested loops that assign one cell each. *)
Lemma assign_loops {T : Type} (v : Z -> Z -> T) (a b n : Z) (m0 : Mat T) :
  let m := for_loop a b
             (fun i m => for_loop 0 n (fun j m => Mat_set m i j (v i j)) m) m0 in
  rows m = rows m0 /\ cols m = cols m0
  /\ forall r c,
      Mat_at m r c
      = if (a <=? r) && (r <? b) && (0 <=? c) && (c <? n)
        then v r c else Mat_at m0 r c.
Proof.
  intros m. subst m.
  assert (Hrow : forall i t,
             let t' := for_loop 0 n (fun j m => Mat_set m i j (v i j)) t in
             rows t' = rows t /\ cols t' = cols t
             /\ forall r c,
                 Mat_at t' r c
                 = if (r =? i) && (0 <=? c) && (c <? n) then v r c else Mat_at t r c).
  { intros i t t'. subst t'.
    destruct (Z.le_gt_cases 0 n) as [Hn | Hn].
    2: { rewrite for_loop_empty by lia. repeat split. intros r c. zbool. }
    apply (for_loop_invariant
             (fun k t' => rows t' = rows t /\ cols t' = cols t
                          /\ forall r c,
                              Mat_at t' r c
                              = if (r =? i) && (0 <=? c) && (c <? k)
                                then v r c else Mat_at t r c));
      [exact Hn | |].
    - repeat split. intros r c. zbool.
    - intros j t' Hj (Hr & Hc & Hcell). repeat split; [exact Hr | exact Hc |].
      intros r c. rewrite Mat_at_set, Hcell. zbool; subst; reflexivity. }
  destruct (Z.le_gt_cases a b) as [Hab | Hab].
  2: { rewrite for_loop_empty by lia. repeat split. intros r c. zbool. }
  apply (for_loop_invariant
           (fun k t => rows t = rows m0 /\ cols t = cols m0
                       /\ forall r c,
                           Mat_at t r c
                           = if (a <=? r) && (r <? k) && (0 <=? c) && (c <? n)
                             then v r c else Mat_at m0 r c));
    [exact Hab | |].
  - repeat split. intros r c. zbool.
  - intros i t Hi (Hr & Hc & Hcell).
    destruct (Hrow i t) as (Hr' & Hc' & Hcell').
    split; [congruence |]. split; [congruence |].
    intros r c. rewrite Hcell', Hcell. zbool.
Qed.

(** X21: [binary_img_from_sign] on the rows [[a, b)] sets a cell of these
    rows, within the columns of the input, to 1 where the input is zero or
    negative and to 0 where it is positive, and changes no other cell. *)
Theorem binary_img_from_sign_cells (inp : Mat R) (out : Mat Z) (a b : Z) :
  let res := Inverter.binary_img_from_sign inp out a b in
  rows res = rows out /\ cols res = cols out
  /\ forall r c,
      (a <= r < b /\ 0 <= c < cols inp ->
       ((Mat_at inp r c <= 0)%R -> Mat_at res r c = 1)
       /\ ((0 < Mat_at inp r c)%R -> Mat_at res r c = 0))
      /\ (~ (a <= r < b /\ 0 <= c < cols inp) ->
          Mat_at res r c = Mat_at out r c).
Proof.
  intros res. subst res. unfold Inverter.binary_img_from_sign.
  destruct (assign_loops (fun c d => if Rleb (Mat_at inp c d) 0 then 1 else 0)
              a b (cols inp) out) as (Hr & Hc & Hcell).
  split; [exact Hr |]. split; [exact Hc |].
  intros r c. rewrite Hcell. split.
  - intros Hin.
    replace ((a <=? r) && (r <? b) && (0 <=? c) && (c <? cols inp)) with true
      by (symmetry; zbool).
    unfold Rleb. destruct (Rle_dec (Mat_at inp r c) 0); split; intros; (reflexivity || lra).
  - intros Hout. zbool.
Qed.

(** X22: [update_cc_and_caustics] leaves a caustic map of [h] rows and [w]
    columns whose cells are all 0 or 255, whatever the blur and the contour
    drawing return, and does not touch the geometry, the weight, the
    convergence or the potential of the lens; when the shear is there
    already, the deflection and the shear are kept as well. *)
Theorem update_cc_and_caustics_result
        (blur : Mat R -> Mat R) (contours : Mat Z -> Mat Z)
        (l : Lens.lensT) (radial : bool) :
  let l' := LensBuild.update_cc_and_caustics blur contours l radial in
  rows (Lens.caustic_map l') = Lens.h l
  /\ cols (Lens.caustic_map l') = Lens.w l
  /\ (forall r c, Mat_at (Lens.caustic_map l') r c = 0
                  \/ Mat_at (Lens.caustic_map l') r c = 255)
  /\ Lens.origin l' = Lens.origin l /\ Lens.end_points l' = Lens.end_points l
  /\ Lens.w l' = Lens.w l /\ Lens.h l' = Lens.h l
  /\ Lens.weight l' = Lens.weight l
  /\ Lens.kappa l' = Lens.kappa l /\ Lens.kappa8u l' = Lens.kappa8u l
  /\ Lens.psi l' = Lens.psi l
  /\ (cols (Lens.shear l) <> 0 ->
      Lens.alpha1 l' = Lens.alpha1 l /\ Lens.alpha2 l' = Lens.alpha2 l
      /\ Lens.shear l' = Lens.shear l).
Proof.
  intros l'. subst l'. unfold LensBuild.update_cc_and_caustics.
  set (l0 := if cols (Lens.shear l) =? 0
             then LensBuild.compute_derivatives_from_psi l else l).
  assert (Hsame : Lens.origin l0 = Lens.origin l
                  /\ Lens.end_points l0 = Lens.end_points l
                  /\ Lens.w l0 = Lens.w l /\ Lens.h l0 = Lens.h l
                  /\ Lens.weight l0 = Lens.weight l
                  /\ Lens.kappa l0 = Lens.kappa l
                  /\ Lens.kappa8u l0 = Lens.kappa8u l
                  /\ Lens.psi l0 = Lens.psi l)
    by (subst l0; destruct (cols (Lens.shear l) =? 0); repeat split).
  destruct Hsame as (Ho & He & Hw & Hh & Hwt & Hk & Hk8 & Hpsi).
  unfold Inverter.invert_cc_map.
  cbn [Lens.caustic_map Lens.with_caustic_map Lens.with_cc_map Lens.origin
       Lens.end_points Lens.w Lens.h Lens.weight Lens.kappa Lens.kappa8u Lens.psi
       Lens.alpha1 Lens.alpha2 Lens.shear].
  match goal with
  | |- rows (for_loop ?a ?b (fun i cm => for_loop 0 ?n (fun j cm' =>
          Inverter.invert_cc_pixel ?lens ?wd ?ht i j cm') cm) ?cm0) = _ /\ _ =>
      destruct (invert_cc_loops_only_marked lens wd ht a b cm0) as (Hr & Hc & Hcell)
  end.
  split; [etransitivity; [exact Hr | exact Hh] |].
  split; [etransitivity; [exact Hc | exact Hw] |].
  split.
  { intros r c. destruct (Hcell r c) as [[H | H] _]; [left | right]; exact H. }
  repeat (split; [assumption |]).
  intros Hshear. subst l0.
  destruct (Z.eqb_spec (cols (Lens.shear l)) 0); [contradiction |]. repeat split.
Qed.

Lemma update_cc_and_caustics_result_witness :
  cols (Lens.shear lens_3x3) <> 0
  /\ Lens.alpha1 (LensBuild.update_cc_and_caustics (fun m => m) (fun m => m)
                    lens_3x3 true)
     = Lens.alpha1 lens_3x3.
Proof.
  assert (H : cols (Lens.shear lens_3x3) <> 0) by (cbn; lia).
  split.
  - exact H.
  - exact (proj1 (proj2 (proj2 (proj2 (proj2 (proj2 (proj2 (proj2 (proj2
             (proj2 (proj2 (proj2
               (update_cc_and_caustics_result (fun m => m) (fun m => m)
                  lens_3x3 true)))))))))))
             H)).
Defined.

(** ** The convergence of a byte image, in general *)

Lemma In_Mat_cells {T : Type} (m : Mat T) (x : T) :
  In x (Mat_cells m)
  <-> exists r c, 0 <= r < rows m /\ 0 <= c < cols m /\ x = Mat_at m r c.
Proof.
  unfold Mat_cells. rewrite in_flat_map. split.
  - intros (r & Hr & Hx). apply in_map_iff in Hx as (c & Hx & Hc).
    apply in_seq in Hr, Hc. exists (Z.of_nat r), (Z.of_nat c).
    split; [lia |]. split; [lia | now symmetry].
  - intros (r & c & Hr & Hc & ->). exists (Z.to_nat r).
    split; [apply in_seq; lia |].
    apply in_map_iff. exists (Z.to_nat c).
    split; [now rewrite !Z2Nat.id by lia | apply in_seq; lia].
Qed.

Lemma fold_Rmin_le (d : R) (l : list R) (x : R) :
  In x l -> (fold_right Rmin d l <= x)%R.
Proof.
  induction l as [| y l IH]; intros Hin; [contradiction |].
  cbn [fold_right]. destruct Hin as [-> | Hin].
  - apply Rmin_l.
  - eapply Rle_trans; [apply Rmin_r | now apply IH].
Qed.

Lemma fold_Rmax_ge (d : R) (l : list R) (x : R) :
  In x l -> (x <= fold_right Rmax d l)%R.
Proof.
  induction l as [| y l IH]; intros Hin; [contradiction |].
  cbn [fold_right]. destruct Hin as [-> | Hin].
  - apply Rmax_l.
  - eapply Rle_trans; [now apply IH | apply Rmax_r].
Qed.

Lemma fold_Rmin_ge (d : R) (l : list R) (b : R) :
  (b <= d)%R -> (forall x, In x l -> (b <= x)%R) -> (b <= fold_right Rmin d l)%R.
Proof.
  intros Hd. induction l as [| y l IH]; intros Hall; [exact Hd |].
  cbn [fold_right]. apply Rmin_glb.
  - apply Hall. now left.
  - apply IH. intros x Hx. apply Hall. now right.
Qed.

Lemma fold_Rmax_le (d : R) (l : list R) (b : R) :
  (d <= b)%R -> (forall x, In x l -> (x <= b)%R) -> (fold_right Rmax d l <= b)%R.
Proof.
  intros Hd. induction l as [| y l IH]; intros Hall; [exact Hd |].
  cbn [fold_right]. apply Rmax_lub.
  - apply Hall. now left.
  - apply IH. intros x Hx. apply Hall. now right.
Qed.

Lemma hd_In (l : list R) (x : R) : In x l -> In (hd 0%R l) l.
Proof. destruct l; [contradiction | intros _; now left]. Qed.

(** The value [normalize_minmax src 2 0] gives a cell, in terms of the
    smallest and largest value found. *)
Lemma normalize_minmax_at (src : Mat R) (r c : Z) :
  let cells := Mat_cells src in
  let smin := fold_right Rmin (hd 0%R cells) cells in
  let smax := fold_right Rmax (hd 0%R cells) cells in
  Mat_at (LensBuild.normalize_minmax src 2 0) r c
  = if Rlt_dec LensBuild.DBL_EPSILON (smax - smin)
    then (2 * (Mat_at src r c - smin) / (smax - smin))%R else 0%R.
Proof.
  intros cells smin smax. unfold LensBuild.normalize_minmax.
  fold cells. fold smin. fold smax. cbn [Mat_map Mat_at].
  assert (Hmin : Rmin 2 0 = 0%R) by (apply Rmin_right; lra).
  assert (Hmax : Rmax 2 0 = 2%R) by (apply Rmax_left; lra).
  rewrite Hmin, Hmax.
  destruct (Rlt_dec LensBuild.DBL_EPSILON (smax - smin)) as [Hgt | Hle].
  - unfold LensBuild.DBL_EPSILON in Hgt. field. lra.
  - ring.
Qed.

(** X24: the convergence stored for a byte image lies between 0 and 2 in
    every cell; a darkest pixel becomes 0, and a brightest pixel becomes 2
    as soon as the image has a darker one, whatever its byte value. *)
Theorem store_kappa_stretch (m : Mat Z) (r c : Z) :
  0 <= r < rows m -> 0 <= c < cols m ->
  let k := fst (LensBuild.store_kappa (LensBuild.Kappa8U m)) in
  (0 <= Mat_at k r c <= 2)%R
  /\ ((forall r' c', 0 <= r' < rows m -> 0 <= c' < cols m ->
                     Mat_at m r c <= Mat_at m r' c') ->
      Mat_at k r c = 0%R)
  /\ ((forall r' c', 0 <= r' < rows m -> 0 <= c' < cols m ->
                     Mat_at m r' c' <= Mat_at m r c) ->
      (exists r' c', 0 <= r' < rows m /\ 0 <= c' < cols m
                     /\ Mat_at m r' c' < Mat_at m r c) ->
      Mat_at k r c = 2%R).
Proof.
  intros Hr Hc k. subst k. cbn [LensBuild.store_kappa fst].
  rewrite normalize_minmax_at.
  set (src := Mat_map IZR m). set (cells := Mat_cells src).
  set (smin := fold_right Rmin (hd 0%R cells) cells).
  set (smax := fold_right Rmax (hd 0%R cells) cells).
  assert (Hcell : In (Mat_at src r c) cells)
    by (apply In_Mat_cells; exists r, c; now repeat split).
  assert (Hlo : (smin <= Mat_at src r c)%R) by now apply fold_Rmin_le.
  assert (Hhi : (Mat_at src r c <= smax)%R) by now apply fold_Rmax_ge.
  change (Mat_at src r c) with (IZR (Mat_at m r c)) in *.
  split; [| split].
  - destruct (Rlt_dec LensBuild.DBL_EPSILON (smax - smin)) as [Hgt | _]; [| lra].
    unfold LensBuild.DBL_EPSILON in Hgt.
    assert (Hpos : (0 < smax - smin)%R) by lra.
    split.
    + apply Rmult_le_pos; [nra | left; now apply Rinv_0_lt_compat].
    + apply (Rmult_le_reg_r (smax - smin)); [exact Hpos |].
      unfold Rdiv. rewrite Rmult_assoc, Rinv_l by lra. lra.
  - intros Hdark.
    assert (Hmin : (IZR (Mat_at m r c) <= smin)%R).
    { apply fold_Rmin_ge.
      - pose proof (hd_In cells _ Hcell) as Hhd.
        apply In_Mat_cells in Hhd as (r' & c' & Hr' & Hc' & ->).
        apply IZR_le. now apply Hdark.
      - intros x Hx. apply In_Mat_cells in Hx as (r' & c' & Hr' & Hc' & ->).
        apply IZR_le. now apply Hdark. }
    destruct (Rlt_dec LensBuild.DBL_EPSILON (smax - smin)); [| reflexivity].
    replace (IZR (Mat_at m r c) - smin)%R with 0%R by lra.
    unfold Rdiv. ring.
  - intros Hbright (r' & c' & Hr' & Hc' & Hless).
    assert (Hmax : (smax <= IZR (Mat_at m r c))%R).
    { apply fold_Rmax_le.
      - pose proof (hd_In cells _ Hcell) as Hhd.
        apply In_Mat_cells in Hhd as (r1 & c1 & Hr1 & Hc1 & ->).
        apply IZR_le. now apply Hbright.
      - intros x Hx. apply In_Mat_cells in Hx as (r1 & c1 & Hr1 & Hc1 & ->).
        apply IZR_le. now apply Hbright. }
    assert (Hsmall : (smin <= IZR (Mat_at m r' c'))%R).
    { apply fold_Rmin_le. apply In_Mat_cells. exists r', c'. now repeat split. }
    assert (Hgap : (IZR (Mat_at m r' c') + 1 <= IZR (Mat_at m r c))%R)
      by (rewrite <- plus_IZR; apply IZR_le; lia).
    destruct (Rlt_dec LensBuild.DBL_EPSILON (smax - smin)) as [_ | Hno].
    + replace (IZR (Mat_at m r c)) with smax by lra. field. lra.
    + exfalso. apply Hno. unfold LensBuild.DBL_EPSILON. lra.
Qed.

Lemma store_kappa_stretch_witness :
  0 <= 0 < rows image_dim /\ 0 <= 1 < cols image_dim
  /\ (0 <= Mat_at (fst (LensBuild.store_kappa (LensBuild.Kappa8U image_dim))) 0 1
      <= 2)%R.
Proof.
  split; [cbn; lia |]. split; [cbn; lia |].
  apply (store_kappa_stretch image_dim 0 1); cbn; lia.
Defined.

(** ** Instances on the small screen and lens *)


Lemma Parallel_renderer_frame_witness :
  ~ (0 <= 5 < 3 /\ 0 <= 1 < Renderer.max_w screen_3x3)
  /\ Mat_at (Renderer.lensedRGB (Renderer.Parallel_renderer screen_3x3 false 0 3)) 5 1
     = Mat_at (Renderer.lensedRGB screen_3x3) 5 1
  /\ Mat_at (Renderer.finalRGB (Renderer.Parallel_renderer screen_3x3 false 0 3)) 5 1
     = Mat_at (Renderer.finalRGB screen_3x3) 5 1.
Proof.
  assert (H : ~ (0 <= 5 < 3 /\ 0 <= 1 < Renderer.max_w screen_3x3)) by lia.
  split; [exact H |].
  exact (proj1 (Parallel_renderer_frame screen_3x3 false 0 3) 5 1 H).
Defined.

Lemma caustic_pass_only_marks_witness :
  ~ (0 <= 7 < rows (Lens.caustic_map lens_corner)
     /\ 0 <= 0 < cols (Lens.caustic_map lens_corner))
  /\ Mat_at (Lens.caustic_map (Inverter.invert_cc_map lens_corner 0 2)) 7 0
     = Mat_at (Lens.caustic_map lens_corner) 7 0.
Proof.
  assert (H : ~ (0 <= 7 < rows (Lens.caustic_map lens_corner)
                 /\ 0 <= 0 < cols (Lens.caustic_map lens_corner)))
    by (cbn; lia).
  split; [exact H |].
  exact (proj2 (proj2 (proj2 (caustic_pass_only_marks lens_corner 0 2)) 7 0) H).
Defined.

Lemma binary_img_from_sign_cells_witness :
  ~ (0 <= 3 < 1 /\ 0 <= 0 < cols row_of_squares)
  /\ Mat_at (Inverter.binary_img_from_sign row_of_squares (Mat_zeros8u 1 5) 0 1) 3 0
     = Mat_at (Mat_zeros8u 1 5) 3 0.
Proof.
  assert (H : ~ (0 <= 3 < 1 /\ 0 <= 0 < cols row_of_squares)) by lia.
  split; [exact H |].
  exact (proj2 (proj2 (proj2 (binary_img_from_sign_cells row_of_squares
                                (Mat_zeros8u 1 5) 0 1)) 3 0) H).
Defined.
